(** * kuma: the event-loop core (EPoll.cpp, EventLoopImpl.cpp)

    A shallow embedding of the edge-triggered multiplexer [EPoll] and of
    the reactor [EventLoopImpl], with the properties of the design
    document proved (or refuted) against it.

    Conventions.
    - C integers are [Z]; the casts the source performs ([int], [uint32_t],
      [size_t]) are written out with [to_int], [to_uint32], [to_size_t].
    - [std::vector<PollItem>] is a list of slots, read through stdpp's
      lookup and written through [alter]; [resize] is stdpp's [resize],
      [pop_back] drops the last element.
    - A [std::function] is an optional closure handle; what a closure does
      when it is called is given by the [Closures] interface, as a function
      on the whole [World] (closures capture the loop and may call back
      into it).
    - System calls are answered by the [Kernel] interface; every function
      returns, next to its result and the new world, the sequence of
      observable [Event]s it produced itself (trace lines, system calls,
      closure invocations). *)

From Stdlib Require Import ZArith Lia List Bool.
From stdpp Require Import base tactics option list numbers.
Import ListNotations.

Local Open Scope Z_scope.

(** ** Machine integers *)

Module Cint.

Definition to_uint32 (x : Z) : Z := x mod 2 ^ 32.
Definition to_size_t (x : Z) : Z := x mod 2 ^ 64.
Definition to_ulong  (x : Z) : Z := x mod 2 ^ 64.

(** Conversion to a 32-bit [int] (two's complement). *)
Definition to_int (x : Z) : Z := (x + 2 ^ 31) mod 2 ^ 32 - 2 ^ 31.

Definition is_int (x : Z) : Prop := - 2 ^ 31 <= x < 2 ^ 31.
Definition is_uint32 (x : Z) : Prop := 0 <= x < 2 ^ 32.

End Cint.

(** ** <sys/epoll.h> and <errno.h> (Linux ABI values) *)

Definition EPOLLIN  : Z := 0x001.
Definition EPOLLOUT : Z := 0x004.
Definition EPOLLERR : Z := 0x008.
Definition EPOLLHUP : Z := 0x010.
Definition EPOLLET  : Z := Z.shiftl 1 31.

Definition EPOLL_CTL_ADD : Z := 1.
Definition EPOLL_CTL_DEL : Z := 2.
Definition EPOLL_CTL_MOD : Z := 3.

Definition EINTR : Z := 4.

Definition MAX_EPOLL_FDS : Z := 5000.
Definition MAX_EVENT_NUM : Z := 500.

(** [INVALID_FD] is what [epoll_create] returns on failure ([EPoll::init]
    tests [INVALID_FD == epoll_fd_] right after the call). *)
Definition INVALID_FD : Z := -1.

(** The error kinds the two files return. *)
Inductive KMError : Set := NOERR | FAILED | INVALID_PARAM.

#[global] Instance KMError_eq_dec : EqDecision KMError.
Proof. solve_decision. Defined.

(** ** The portable event bits

    [KUMA_EV_READ], [KUMA_EV_WRITE] and [KUMA_EV_ERROR] come from a header
    that is not part of the two files; they are kept abstract.  Where a
    property needs them to be three different single bits of a
    [uint32_t], [KumaEvBits] says so. *)

Class KumaEv : Type := {
  KUMA_EV_READ  : Z;
  KUMA_EV_WRITE : Z;
  KUMA_EV_ERROR : Z
}.

Record KumaEvBits (K : KumaEv) : Prop := {
  read_bit  : exists r, 0 <= r < 32 /\ KUMA_EV_READ = 2 ^ r;
  write_bit : exists w, 0 <= w < 32 /\ KUMA_EV_WRITE = 2 ^ w;
  error_bit : exists e, 0 <= e < 32 /\ KUMA_EV_ERROR = 2 ^ e;
  read_write : KUMA_EV_READ <> KUMA_EV_WRITE;
  read_error : KUMA_EV_READ <> KUMA_EV_ERROR;
  write_error : KUMA_EV_WRITE <> KUMA_EV_ERROR
}.

(** The usual assignment, used to run the model on concrete inputs. *)
Definition kuma_ev_124 : KumaEv :=
  {| KUMA_EV_READ := 1; KUMA_EV_WRITE := 2; KUMA_EV_ERROR := 4 |}.

(** C truth value of an integer expression. *)
Definition nonzero (x : Z) : bool := negb (x =? 0).

Section Events.

Context {K : KumaEv}.

(** [EPoll::get_events] *)
Definition get_events (kuma_events : Z) : Z :=
  let ev := EPOLLET in
  let ev := if nonzero (Z.land kuma_events KUMA_EV_READ)
            then Z.lor ev EPOLLIN else ev in
  let ev := if nonzero (Z.land kuma_events KUMA_EV_WRITE)
            then Z.lor ev EPOLLOUT else ev in
  let ev := if nonzero (Z.land kuma_events KUMA_EV_ERROR)
            then Z.lor ev (Z.lor EPOLLERR EPOLLHUP) else ev in
  ev.

(** [EPoll::get_kuma_events] *)
Definition get_kuma_events (events : Z) : Z :=
  let ev := 0 in
  let ev := if nonzero (Z.land events EPOLLIN)
            then Z.lor ev KUMA_EV_READ else ev in
  let ev := if nonzero (Z.land events EPOLLOUT)
            then Z.lor ev KUMA_EV_WRITE else ev in
  let ev := if nonzero (Z.land events (Z.lor EPOLLERR EPOLLHUP))
            then Z.lor ev KUMA_EV_ERROR else ev in
  ev.

End Events.

(** ** Handles and the world outside the loop object *)

Class Outside : Type := {
  (** target of a non-empty [IOCallback] *)
  IOFn : Type;
  (** target of a non-empty [LoopCallback] *)
  TaskFn : Type;
  (** a [Listener*]; pointers can be compared *)
  Listener : Type;
  Listener_eq_dec :: EqDecision Listener;
  (** the kernel, and the memory of the process outside the loop object *)
  Env : Type
}.

(** [struct epoll_event]: the event mask and [data.ptr] read as an
    integer. *)
Record epoll_event : Set := { ev_events : Z; ev_data : Z }.

(** What one [epoll_wait] call leaves behind: its return value, [errno],
    and the contents of the [events] array. *)
Record epoll_wait_ret : Set := {
  nfds : Z;
  errno : Z;
  ready : list epoll_event
}.

Inductive TraceLevel : Set := INFO | WARN | ERROR.

(** [std::function<void(uint32_t)>] and [std::function<void()>]; [None]
    is the empty function object. *)
Definition IOCallback {O : Outside} : Type := option IOFn.
Definition LoopCallback {O : Outside} : Type := option TaskFn.

Module PollItem.

(** Modelled from the spec: [PollItem] is declared in IOPoll.h, which is
    not among the sources.  A registration holds the descriptor, the
    portable interest mask and the callback; a retired slot holds the
    unused sentinel in its descriptor field. *)
Record t {O : Outside} : Type := {
  fd : Z;
  events : Z;
  cb : IOCallback
}.

(** Modelled from the spec: the state of a slot that holds no
    registration (a default-constructed [PollItem]). *)
Definition unused {O : Outside} : t :=
  {| fd := INVALID_FD; events := 0; cb := None |}.

(** Modelled from the spec: [PollItem::reset] (IOPoll.h) sets the slot to
    the unused sentinel and drops its callback. *)
Definition reset {O : Outside} (_ : t) : t := unused.

(** Assignments to one field of a slot. *)
Definition set_fd {O : Outside} (v : Z) (it : t) : t :=
  {| fd := v; events := events it; cb := cb it |}.
Definition set_events {O : Outside} (v : Z) (it : t) : t :=
  {| fd := fd it; events := v; cb := cb it |}.
Definition set_cb {O : Outside} (v : IOCallback) (it : t) : t :=
  {| fd := fd it; events := events it; cb := v |}.

End PollItem.

(** [typedef std::vector<PollItem> PollItemVector] *)
Abbreviation PollItemVector := (list PollItem.t).

Section Model.

Context {O : Outside}.

(** [poll_items_[i]]; the source never indexes out of range on the paths
    modelled here (every use is guarded or follows [resizePollItems]). *)
Definition at_ (items : PollItemVector) (i : Z) : PollItem.t :=
  default PollItem.unused (items !! Z.to_nat i).

(** [poll_items_.size()], a [size_t]. *)
Definition size (items : PollItemVector) : Z := Z.of_nat (length items).

(** Descriptors are [int]s, so a table that [registerFd] has grown never
    has more than [2 ^ 31] slots. *)
Definition int_indexed (items : PollItemVector) : Prop := size items <= 2 ^ 31.

(** [poll_items_.pop_back()] *)
Definition pop_back (items : PollItemVector) : PollItemVector :=
  take (Nat.pred (length items)) items.

(** Modelled from the spec: [IOPoll::resizePollItems] (IOPoll.h) grows
    the table when the descriptor does not index into it, so that it
    does, filling the new slots with the unused sentinel; it never
    shrinks the table or touches an existing slot. *)
Definition resizePollItems (fd : Z) (items : PollItemVector) : PollItemVector :=
  if fd >=? size items
  then resize (Z.to_nat (fd + 1)) PollItem.unused items
  else items.

(** [class EPoll] (with the table it inherits from [IOPoll]). *)
Record EPoll : Type := {
  epoll_fd_ : Z;
  poll_items_ : PollItemVector
}.

(** [class EventLoopImpl]; [cb_queue_] is the task queue, oldest entry
    first. *)
Record EventLoopImpl : Type := {
  poll_ : EPoll;
  cb_queue_ : list LoopCallback;
  stop_loop_ : bool;
  listeners_ : list Listener
}.

Record World : Type := {
  loop_ : EventLoopImpl;
  env : Env
}.

Definition items (w : World) : PollItemVector := poll_items_ (poll_ (loop_ w)).
Definition epfd (w : World) : Z := epoll_fd_ (poll_ (loop_ w)).
Definition queue (w : World) : list LoopCallback := cb_queue_ (loop_ w).
Definition stopped (w : World) : bool := stop_loop_ (loop_ w).
Definition listeners (w : World) : list Listener := listeners_ (loop_ w).

Definition set_items (v : PollItemVector) (w : World) : World :=
  {| loop_ := {| poll_ := {| epoll_fd_ := epfd w; poll_items_ := v |};
                 cb_queue_ := queue w;
                 stop_loop_ := stopped w;
                 listeners_ := listeners w |};
     env := env w |}.

Definition set_queue (v : list LoopCallback) (w : World) : World :=
  {| loop_ := {| poll_ := poll_ (loop_ w);
                 cb_queue_ := v;
                 stop_loop_ := stopped w;
                 listeners_ := listeners w |};
     env := env w |}.

Definition set_stopped (v : bool) (w : World) : World :=
  {| loop_ := {| poll_ := poll_ (loop_ w);
                 cb_queue_ := queue w;
                 stop_loop_ := v;
                 listeners_ := listeners w |};
     env := env w |}.

Definition set_listeners (v : list Listener) (w : World) : World :=
  {| loop_ := {| poll_ := poll_ (loop_ w);
                 cb_queue_ := queue w;
                 stop_loop_ := stopped w;
                 listeners_ := v |};
     env := env w |}.

Definition set_env (v : Env) (w : World) : World :=
  {| loop_ := loop_ w; env := v |}.

(** What a call can be observed to do. *)
Inductive Event : Type :=
| KumaTrace (lvl : TraceLevel)
| SysEpollCtl (epoll_fd op fd_ : Z) (evt : option epoll_event)
| SysEpollWait (epoll_fd maxevents timeout : Z)
| CallIO (f : IOFn) (kuma_events : Z)
| CallTask (t : TaskFn)
| CallCheckExpire (wait_ms : Z)
| CallPollWait (wait_ms : Z)
| CallLoopStopped (l : Listener)
| CallNotify.

(** The two system calls of EPoll.cpp.  [epoll_ctl] returns its result
    and the new state of the kernel. *)
Class Kernel : Type := {
  epoll_ctl : Z -> Z -> Z -> option epoll_event -> Env -> Z * Env;
  epoll_wait : Z -> Z -> Z -> Env -> epoll_wait_ret * Env;
  (** [Notifier::notify] (Notifier.h is not among the sources): the
      wake-up signal, which only acts on the kernel *)
  notifier_notify : Env -> Env
}.

(** What the closures held by the loop do when they are called.
    [checkExpire] is [TimerManager::checkExpire(&wait_ms)]: the timer
    manager is an external collaborator, so the value it leaves in
    [wait_ms] and what the timers it fires do are left open. *)
Class Closures : Type := {
  call_io : IOFn -> Z -> World -> World;
  call_task : TaskFn -> World -> World;
  loopStopped : Listener -> World -> World;
  checkExpire : Z -> World -> Z * World
}.

End Model.

(** ** EPoll.cpp *)

Section EPollImpl.

Context {KE : KumaEv} {O : Outside} {KN : Kernel} {CL : Closures}.

Definition Result (A : Type) : Type := A * World * list Event.

(** The choice of [epoll_op] in [EPoll::registerFd]: add, unless the
    slot holds a registration already. *)
Definition register_op (poll_items : PollItemVector) (fd : Z) : Z :=
  let epoll_op := EPOLL_CTL_ADD in
  if negb (INVALID_FD =? PollItem.fd (at_ poll_items fd))
  then EPOLL_CTL_MOD else epoll_op.

(** The [epoll_event] that [registerFd] and [updateFd] hand to the
    kernel. *)
Definition make_evt (fd events : Z) : epoll_event :=
  {| ev_events := get_events events; ev_data := fd |}.

(** [EPoll::registerFd] *)
Definition registerFd (fd : Z) (events : Z) (cb : IOCallback) (w : World)
  : Result KMError :=
  if fd <? 0 then (INVALID_PARAM, w, [])
  else
    let poll_items := resizePollItems fd (items w) in
    let epoll_op := register_op poll_items fd in
    let poll_items := alter (PollItem.set_fd fd) (Z.to_nat fd) poll_items in
    let poll_items := alter (PollItem.set_events events) (Z.to_nat fd) poll_items in
    let poll_items := alter (PollItem.set_cb cb) (Z.to_nat fd) poll_items in
    let evt := make_evt fd events in
    let '(r, k) := epoll_ctl (epfd w) epoll_op fd (Some evt) (env w) in
    let w' := set_env k (set_items poll_items w) in
    let sys := SysEpollCtl (epfd w) epoll_op fd (Some evt) in
    if r <? 0
    then (FAILED, w', [sys; KumaTrace ERROR])
    else (NOERR, w', [sys; KumaTrace INFO]).

(** [EPoll::unregisterFd] *)
Definition unregisterFd (fd : Z) (w : World) : Result KMError :=
  let max_fd := Cint.to_int (Cint.to_size_t (size (items w) - 1)) in
  if (fd <? 0) || (fd >? max_fd)
  then (INVALID_PARAM, w, [KumaTrace INFO; KumaTrace WARN])
  else
    let '(_, k) := epoll_ctl (epfd w) EPOLL_CTL_DEL fd None (env w) in
    let poll_items :=
      if fd <? max_fd then alter PollItem.reset (Z.to_nat fd) (items w)
      else if fd =? max_fd then pop_back (items w)
      else items w in
    (NOERR, set_env k (set_items poll_items w),
     [KumaTrace INFO; SysEpollCtl (epfd w) EPOLL_CTL_DEL fd None]).

(** [EPoll::updateFd]; in [fd >= poll_items_.size()] the [int] is
    converted to [size_t]. *)
Definition updateFd (fd : Z) (events : Z) (w : World) : Result KMError :=
  if (fd <? 0) || (Cint.to_size_t fd >=? size (items w))
     || (INVALID_FD =? PollItem.fd (at_ (items w) fd))
  then (FAILED, w, [])
  else
    let evt := make_evt fd events in
    let '(r, k) := epoll_ctl (epfd w) EPOLL_CTL_MOD fd (Some evt) (env w) in
    let sys := SysEpollCtl (epfd w) EPOLL_CTL_MOD fd (Some evt) in
    if r <? 0
    then (FAILED, set_env k w, [sys; KumaTrace ERROR])
    else
      (NOERR,
       set_env k (set_items (alter (PollItem.set_events events) (Z.to_nat fd) (items w)) w),
       [sys]).

(** The [for] loop of [EPoll::wait] over the reported events.  The table
    is read afresh for every event: a callback may have changed it. *)
Fixpoint dispatch (evs : list epoll_event) (w : World) : World * list Event :=
  match evs with
  | [] => (w, [])
  | e :: rest =>
      let fd := Cint.to_int (ev_data e) in
      let '(w1, t1) :=
        if Cint.to_size_t fd <? size (items w) then
          match PollItem.cb (at_ (items w) fd) with
          | Some f =>
              let kev := get_kuma_events (ev_events e) in
              (call_io f kev w, [CallIO f kev])
          | None => (w, [])
          end
        else (w, []) in
      let '(w2, t2) := dispatch rest w1 in
      (w2, t1 ++ t2)
  end.

(** [EPoll::wait]; the [uint32_t] budget becomes the [int] timeout of
    [epoll_wait]. *)
Definition wait (wait_ms : Z) (w : World) : Result KMError :=
  let timeout := Cint.to_int wait_ms in
  let '(r, k) := epoll_wait (epfd w) MAX_EVENT_NUM timeout (env w) in
  let sys := SysEpollWait (epfd w) MAX_EVENT_NUM timeout in
  let w := set_env k w in
  if nfds r <? 0 then
    (NOERR, w,
     [sys] ++ (if negb (errno r =? EINTR) then [KumaTrace ERROR] else [])
           ++ [KumaTrace INFO])
  else
    let '(w', t) := dispatch (take (Z.to_nat (nfds r)) (ready r)) w in
    (NOERR, w', sys :: t).

End EPollImpl.

(** ** EventLoopImpl.cpp *)

Section EventLoop.

Context {KE : KumaEv} {O : Outside} {KN : Kernel} {CL : Closures}.

(** Modelled from the spec: the task queue (util/kmqueue.h is not among
    the sources) is a FIFO; [enqueue] appends, [dequeue] takes the oldest
    entry and reports an empty queue instead of blocking. *)
Definition enqueue (cb : LoopCallback) (w : World) : World :=
  set_queue (queue w ++ [cb]) w.

Definition dequeue (w : World) : option (LoopCallback * World) :=
  match queue w with
  | [] => None
  | cb :: rest => Some (cb, set_queue rest w)
  end.

(** [if (cb) cb();] *)
Definition run_task (cb : LoopCallback) (w : World) : World * list Event :=
  match cb with
  | Some f => (call_task f w, [CallTask f])
  | None => (w, [])
  end.

(** [while (cb_queue_.dequeue(cb)) { if (cb) cb(); }]: a task may enqueue
    further tasks, so the loop is bounded by [fuel]; [None] is a run that
    has not finished within it. *)
Fixpoint drain (fuel : nat) (w : World) : option (World * list Event) :=
  match fuel with
  | 0%nat => None
  | S n =>
      match dequeue w with
      | None => Some (w, [])
      | Some (cb, w1) =>
          let '(w2, t) := run_task cb w1 in
          match drain n w2 with
          | Some (w3, ts) => Some (w3, t ++ ts)
          | None => None
          end
      end
  end.

(** The value [loopOnce] passes to [poll_->wait], given what
    [checkExpire] left in the [unsigned long wait_ms]. *)
Definition clamp (max_wait_ms : Z) (after_timers : Z) : Z :=
  let wait_ms := Cint.to_ulong after_timers in
  let wait_ms := if wait_ms >? max_wait_ms then max_wait_ms else wait_ms in
  Cint.to_uint32 wait_ms.

(** [EventLoopImpl::loopOnce] *)
Definition loopOnce (fuel : nat) (max_wait_ms : Z) (w : World)
  : option (World * list Event) :=
  match drain fuel w with
  | None => None
  | Some (w1, t1) =>
      let wait_ms := max_wait_ms in
      let '(after_timers, w2) := checkExpire wait_ms w1 in
      let budget := clamp max_wait_ms after_timers in
      let '(_, w3, t3) := wait budget w2 in
      Some (w3, t1 ++ [CallCheckExpire wait_ms; CallPollWait budget] ++ t3)
  end.

(** [while (!stop_loop_) { loopOnce(max_wait_ms); }] *)
Fixpoint loop_while (fuel : nat) (max_wait_ms : Z) (w : World)
  : option (World * list Event) :=
  match fuel with
  | 0%nat => None
  | S n =>
      if stopped w then Some (w, [])
      else
        match loopOnce n max_wait_ms w with
        | None => None
        | Some (w1, t1) =>
            match loop_while n max_wait_ms w1 with
            | Some (w2, t2) => Some (w2, t1 ++ t2)
            | None => None
            end
        end
  end.

(** [for (auto l : listeners_) { l->loopStopped(); }] *)
Fixpoint notify_stopped (ls : list Listener) (w : World) : World * list Event :=
  match ls with
  | [] => (w, [])
  | l :: rest =>
      let '(w', t) := notify_stopped rest (loopStopped l w) in
      (w', CallLoopStopped l :: t)
  end.

(** [EventLoopImpl::loop] *)
Definition loop (fuel : nat) (max_wait_ms : Z) (w : World)
  : option (World * list Event) :=
  match loop_while fuel max_wait_ms w with
  | None => None
  | Some (w1, t1) =>
      match drain fuel w1 with
      | None => None
      | Some (w2, t2) =>
          let '(w3, t3) := notify_stopped (listeners w2) w2 in
          Some (set_listeners [] w3, t1 ++ t2 ++ t3 ++ [KumaTrace INFO])
      end
  end.

(** [EventLoopImpl::addListener] *)
Definition addListener (l : Listener) (w : World) : World :=
  set_listeners (listeners w ++ [l]) w.

(** The [for] loop of [EventLoopImpl::removeListener]: erase the first
    entry equal to [l]. *)
Fixpoint erase_first (l : Listener) (ls : list Listener) : list Listener :=
  match ls with
  | [] => []
  | x :: rest => if decide (x = l) then rest else x :: erase_first l rest
  end.

(** [EventLoopImpl::removeListener] *)
Definition removeListener (l : Listener) (w : World) : World :=
  set_listeners (erase_first l (listeners w)) w.

(** [EventLoopImpl::stop] *)
Definition stop (w : World) : World * list Event :=
  (set_env (notifier_notify (env w)) (set_stopped true w),
   [KumaTrace INFO; CallNotify]).

(** The [CallTask] events of running the given queue entries in order;
    an empty function object is skipped. *)
Definition task_call (cb : LoopCallback) : list Event :=
  match cb with Some f => [CallTask f] | None => [] end.

Definition task_calls (q : list LoopCallback) : list Event := q ≫= task_call.

(** The task queue has no interface but [enqueue] for the code the loop
    calls: a task leaves the entries that are queued in place and may add
    new ones behind them. *)
Definition tasks_only_enqueue : Prop :=
  forall f w, exists more, queue (call_task f w) = queue w ++ more.

End EventLoop.

(** ** A small world to run the model on

    Closures and listeners are numbered; the kernel answers every
    [epoll_ctl] with the first and every [epoll_wait] with the second
    component of its state. *)

Module Demo.

#[export] Instance outside : Outside :=
  {| IOFn := nat; TaskFn := nat; Listener := nat;
     Listener_eq_dec := _;
     Env := Z * epoll_wait_ret |}.

#[export] Instance kernel : Kernel :=
  {| epoll_ctl := fun _ _ _ _ k => (fst k, k);
     epoll_wait := fun _ _ _ k => (snd k, k);
     notifier_notify := fun k => k |}.

(** An I/O callback queues the task of its own number.  Task 0 calls
    [stop], task 1 queues task 2, the others do nothing; the timer
    manager has a timer due in 10 ms. *)
#[export] Instance closures : Closures :=
  {| call_io := fun f _ w => enqueue (Some f) w;
     call_task := fun f w =>
       match f with
       | 0%nat => fst (stop w)
       | 1%nat => enqueue (Some 2%nat) w
       | _ => w
       end;
     loopStopped := fun _ w => w;
     checkExpire := fun wait_ms w => (Z.min wait_ms 10, w) |}.

Definition idle : epoll_wait_ret := {| nfds := 0; errno := 0; ready := [] |}.

(** A loop with the given table, tasks and listeners, whose kernel
    answers [epoll_ctl] with [ctl] and [epoll_wait] with [wt]. *)
Definition world (tbl : PollItemVector) (q : list LoopCallback)
    (ls : list Listener) (ctl : Z) (wt : epoll_wait_ret) : World :=
  {| loop_ := {| poll_ := {| epoll_fd_ := 3; poll_items_ := tbl |};
                 cb_queue_ := q; stop_loop_ := false; listeners_ := ls |};
     env := (ctl, wt) |}.

Definition item (d e : Z) (c : nat) : PollItem.t :=
  {| PollItem.fd := d; PollItem.events := e; PollItem.cb := Some c |}.

End Demo.

(** ** The rest of EPoll.cpp *)

Section Process.

Context {O : Outside}.

(** What [EPoll::init], the destructor and [EventLoopImpl::unregisterFd]
    need from outside the two files: [epoll_create] and [close], the
    notifier object held by the poll ([Notifier.h] is not among the
    sources; its state is part of [Env]) with the closure that [init]
    wraps around its [onEvent], and [closeFd]. *)
Class Process : Type := {
  epoll_create : Z -> Env -> Z * Env;
  sys_close : Z -> Env -> Env;
  notifier_ready : Env -> bool;
  notifier_init : Env -> bool * Env;
  notifier_getReadFD : Env -> Z;
  notifier_onEvent : IOFn;
  closeFd : Z -> Env -> Env
}.

Definition set_epfd (v : Z) (w : World) : World :=
  {| loop_ := {| poll_ := {| epoll_fd_ := v; poll_items_ := items w |};
                 cb_queue_ := queue w;
                 stop_loop_ := stopped w;
                 listeners_ := listeners w |};
     env := env w |}.

End Process.

Module Poll.

Section Defs.

Context {KE : KumaEv} {O : Outside} {KN : Kernel} {PR : Process}.

(** [EPoll::EPoll]: the poll a fresh loop object holds. *)
Definition new : EPoll := {| epoll_fd_ := INVALID_FD; poll_items_ := [] |}.

(** [EPoll::~EPoll] *)
Definition destroy (w : World) : World :=
  if negb (INVALID_FD =? epfd w)
  then set_epfd INVALID_FD (set_env (sys_close (epfd w) (env w)) w)
  else w.

(** [EPoll::init].  The result of the [registerFd] call is dropped; the
    events returned are those of that call. *)
Definition init (w : World) : Result bool :=
  let '(efd, k) := epoll_create MAX_EPOLL_FDS (env w) in
  let w := set_env k (set_epfd efd w) in
  if INVALID_FD =? efd then (false, w, [])
  else if negb (notifier_ready (env w)) then
    let '(ok, k) := notifier_init (env w) in
    let w := set_env k w in
    if negb ok then (false, w, [])
    else
      let cb := Some notifier_onEvent in
      let '(_, w, t) :=
        registerFd (notifier_getReadFD (env w))
          (Z.lor KUMA_EV_READ KUMA_EV_ERROR) cb w in
      (true, w, t)
  else (true, w, []).

(** [EPoll::notify] *)
Definition notify (w : World) : World * list Event :=
  (set_env (notifier_notify (env w)) w, [CallNotify]).

End Defs.

End Poll.

(** ** The rest of EventLoopImpl.cpp *)

Module PollType.

(** Modelled from the spec: [enum class PollType] is declared in a header
    that is not among the sources.  The two files name [NONE], [POLL],
    [SELECT] and [EPOLL]; [OTHER] stands for any further member. *)
Inductive t : Set := NONE | POLL | SELECT | EPOLL | OTHER.

End PollType.

(** The platform macros that the preprocessor tests, each defined or
    not. *)
Record Platform : Set := {
  KUMA_OS_WIN : bool;
  KUMA_OS_LINUX : bool;
  KUMA_OS_MAC : bool
}.

(** The three factory functions declared at lines 220-222; the value says
    which of them is called. *)
Inductive Factory : Set := createEPoll | createVPoll | createSelectPoll.

(** [createDefaultIOPoll] *)
Definition createDefaultIOPoll (p : Platform) : Factory :=
  if KUMA_OS_WIN p then createSelectPoll
  else if KUMA_OS_LINUX p then createEPoll
  else if KUMA_OS_MAC p then createVPoll
  else createSelectPoll.

(** [createIOPoll]; without [KUMA_OS_LINUX] the [EPOLL] case falls
    through to [default]. *)
Definition createIOPoll (p : Platform) (poll_type : PollType.t) : Factory :=
  match poll_type with
  | PollType.POLL => createVPoll
  | PollType.SELECT => createSelectPoll
  | PollType.EPOLL =>
      if KUMA_OS_LINUX p then createEPoll else createDefaultIOPoll p
  | _ => createDefaultIOPoll p
  end.

(** What a call that may throw comes to. *)
Inductive Outcome {O : Outside} (A : Type) : Type :=
| Returns (a : A) (w : World) (t : list Event)
| Throws_bad_function_call.

Arguments Returns {O A} a w t.
Arguments Throws_bad_function_call {O A}.

Module Loop.

Section Defs.

Context {KE : KumaEv} {O : Outside} {KN : Kernel} {CL : Closures} {PR : Process}.

(** [EventLoopImpl::init]; [thread_id_], which it also sets, is
    represented by the [in_loop_thread] argument of the functions
    below. *)
Definition init (w : World) : Result bool :=
  let '(ok, w, t) := Poll.init w in
  if negb ok then (false, w, t)
  else (true, set_stopped false w, t).

(** [EventLoopImpl::notify] *)
Definition notify (w : World) : World * list Event := Poll.notify w.

(** Calling a [std::function]: an empty one throws. *)
Definition invoke (cb : LoopCallback) (w : World) : Outcome KMError :=
  match cb with
  | Some f => Returns NOERR (call_task f w) [CallTask f]
  | None => Throws_bad_function_call
  end.

(** [EventLoopImpl::runInEventLoop]; [in_loop_thread] is what
    [isInEventLoopThread()] answers to the caller. *)
Definition runInEventLoop (in_loop_thread : bool) (cb : LoopCallback)
    (w : World) : Outcome KMError :=
  if in_loop_thread then invoke cb w
  else
    let w := enqueue cb w in
    let '(w, t) := Poll.notify w in
    Returns NOERR w t.

(** [EventLoopImpl::queueInEventLoop] *)
Definition queueInEventLoop (in_loop_thread : bool) (cb : LoopCallback)
    (w : World) : Result KMError :=
  let w := enqueue cb w in
  if negb in_loop_thread then
    let '(w, t) := Poll.notify w in (NOERR, w, t)
  else (NOERR, w, []).

(** [EventLoopImpl::unregisterFd] when called on the loop thread (on any
    other thread the call blocks on a condition variable). *)
Definition unregisterFd_in_loop_thread (fd : Z) (close_fd : bool) (w : World)
  : Result KMError :=
  let '(ret, w, t) := unregisterFd fd w in
  let w := if close_fd then set_env (closeFd fd (env w)) w else w in
  (ret, w, t).

End Defs.

End Loop.

(** The closures that [EventLoopImpl::registerFd] and
    [EventLoopImpl::updateFd] hand to [runInEventLoop] when they are
    called on another thread: lambdas that call the poll and drop its
    result. *)
Class Lambdas {KE : KumaEv} {O : Outside} {KN : Kernel} {CL : Closures} : Type := {
  register_lambda : Z -> Z -> IOCallback -> TaskFn;
  update_lambda : Z -> Z -> TaskFn;
  register_lambda_call : forall fd events cb w,
    call_task (register_lambda fd events cb) w = (registerFd fd events cb w).1.2;
  update_lambda_call : forall fd events w,
    call_task (update_lambda fd events) w = (updateFd fd events w).1.2
}.

Module LoopFd.

Section Defs.

Context {KE : KumaEv} {O : Outside} {KN : Kernel} {CL : Closures}
        {PR : Process} {LA : Lambdas}.

(** [EventLoopImpl::registerFd] *)
Definition registerFd (in_loop_thread : bool) (fd events : Z) (cb : IOCallback)
    (w : World) : Outcome KMError :=
  if in_loop_thread then
    let '(ret, w, t) := registerFd fd events cb w in Returns ret w t
  else Loop.runInEventLoop false (Some (register_lambda fd events cb)) w.

(** [EventLoopImpl::updateFd] *)
Definition updateFd (in_loop_thread : bool) (fd events : Z) (w : World)
  : Outcome KMError :=
  if in_loop_thread then
    let '(ret, w, t) := updateFd fd events w in Returns ret w t
  else Loop.runInEventLoop false (Some (update_lambda fd events)) w.

End Defs.

End LoopFd.

(** ** Notions used to state properties of the table and of [wait] *)

Section Notions.

Context {KE : KumaEv} {O : Outside}.

(** Every slot is the unused sentinel or holds its own index as its
    descriptor. *)
Definition slots_ok (tbl : PollItemVector) : Prop :=
  forall i it, tbl !! i = Some it ->
    it = PollItem.unused \/ PollItem.fd it = Z.of_nat i.

Definition table_ok (tbl : PollItemVector) : Prop :=
  int_indexed tbl /\ slots_ok tbl.

(** The callback invocation that one reported event leads to in
    [EPoll::wait], for a given table. *)
Definition ready_call (tbl : PollItemVector) (e : epoll_event) : list Event :=
  let fd := Cint.to_int (ev_data e) in
  if Cint.to_size_t fd <? size tbl then
    match PollItem.cb (at_ tbl fd) with
    | Some f => [CallIO f (get_kuma_events (ev_events e))]
    | None => []
    end
  else [].

End Notions.

(** The table has no interface but [registerFd], [unregisterFd] and
    [updateFd]; this says that no I/O callback uses them. *)
Definition callbacks_keep_table {O : Outside} {CL : Closures} : Prop :=
  forall f kev w, items (call_io f kev w) = items w.

(** ** Two more small worlds *)

Module DemoProcess.

(** For the world of [Demo]: [epoll_create] returns descriptor 7, the
    notifier is not ready, can be initialised and reads from descriptor
    4, and its closure is callback 9. *)
#[export] Instance process : Process (O:=Demo.outside) :=
  {| epoll_create := fun _ k => (7, k);
     sys_close := fun _ k => k;
     notifier_ready := fun _ => false;
     notifier_init := fun k => (true, k);
     notifier_getReadFD := fun _ => 4;
     notifier_onEvent := (9%nat : IOFn (Outside:=Demo.outside));
     closeFd := fun _ k => k |}.

End DemoProcess.

Module DemoLambda.

(** Tasks are the two lambdas of [EventLoopImpl::registerFd] and
    [EventLoopImpl::updateFd], with what they captured; the state of the
    kernel is its answer to [epoll_ctl]. *)
Inductive task : Set :=
| TRegister (fd events : Z) (cb : option nat)
| TUpdate (fd events : Z).

#[export] Instance outside : Outside :=
  {| IOFn := nat; TaskFn := task; Listener := nat;
     Listener_eq_dec := _;
     Env := Z |}.

#[export] Instance kernel : Kernel :=
  {| epoll_ctl := fun _ _ _ _ k => (k, k);
     epoll_wait := fun _ _ _ k => (Demo.idle, k);
     notifier_notify := fun k => k |}.

#[export] Instance closures : Closures :=
  {| call_io := fun _ _ w => w;
     call_task := fun t w =>
       match t with
       | TRegister fd events cb =>
           (registerFd (KE:=kuma_ev_124) fd events cb w).1.2
       | TUpdate fd events => (updateFd (KE:=kuma_ev_124) fd events w).1.2
       end;
     loopStopped := fun _ w => w;
     checkExpire := fun wait_ms w => (wait_ms, w) |}.

#[export] Instance process : Process (O:=outside) :=
  {| epoll_create := fun _ k => (7, k);
     sys_close := fun _ k => k;
     notifier_ready := fun _ => true;
     notifier_init := fun k => (true, k);
     notifier_getReadFD := fun _ => 4;
     notifier_onEvent := (9%nat : IOFn (Outside:=outside));
     closeFd := fun _ k => k |}.

#[export] Instance lambdas : Lambdas (KE:=kuma_ev_124) (KN:=kernel) (CL:=closures) :=
  {| register_lambda := TRegister;
     update_lambda := TUpdate;
     register_lambda_call := fun _ _ _ _ => eq_refl;
     update_lambda_call := fun _ _ _ => eq_refl |}.

Definition world (tbl : PollItemVector) (ctl : Z) : World :=
  {| loop_ := {| poll_ := {| epoll_fd_ := 3; poll_items_ := tbl |};
                 cb_queue_ := []; stop_loop_ := false; listeners_ := [] |};
     env := ctl |}.

Definition unused : PollItem.t (O:=outside) := PollItem.unused.

Definition item (d e : Z) (c : nat) : PollItem.t (O:=outside) :=
  {| PollItem.fd := d; PollItem.events := e; PollItem.cb := Some c |}.

End DemoLambda.

(** ** Notions used to state properties of the loop *)

Section LoopNotions.

Context {O : Outside} {CL : Closures}.

(** One round of the drain loop, for the entry [cb] at the head of the
    queue: the entry is taken out of the queue, then called. *)
Definition step_task (v : World) (cb : LoopCallback) : World :=
  (run_task cb (set_queue (tail (queue v)) v)).1.

(** The rounds of the drain loop for the given entries, in order. *)
Definition run_tasks (cbs : list LoopCallback) (w : World) : World :=
  foldl step_task w cbs.

(** The first [n] rounds of the drain loop (fewer when the queue runs
    empty before): the world reached and the events so far. *)
Fixpoint drain_rounds (n : nat) (w : World) : World * list Event :=
  match n with
  | 0%nat => (w, [])
  | S n =>
      match dequeue w with
      | None => (w, [])
      | Some (cb, w1) =>
          let '(w2, t) := run_task cb w1 in
          let '(w3, ts) := drain_rounds n w2 in
          (w3, t ++ ts)
      end
  end.

(** The listeners whose [loopStopped] a trace shows, in the order of the
    calls, and how often a listener is among them. *)
Definition notified (tr : list Event) : list Listener :=
  tr ≫= (fun e => match e with CallLoopStopped l => [l] | _ => [] end).

Definition times_notified (l : Listener) (tr : list Event) : nat :=
  length (filter (fun x => x = l) (notified tr)).

(** What the [for] loop over the listeners does to the world. *)
Definition stop_all (ls : list Listener) (w : World) : World :=
  foldl (fun v l => loopStopped l v) w ls.

End LoopNotions.

Module DemoSpin.

(** For the world of [Demo]: every task queues itself again. *)
#[export] Instance closures : Closures (O:=Demo.outside) :=
  {| call_io := fun _ _ w => w;
     call_task := fun f w => enqueue (Some f) w;
     loopStopped := fun _ w => w;
     checkExpire := fun wait_ms w => (wait_ms, w) |}.

End DemoSpin.

(** * Properties *)

(** ** Integer conversions *)

Lemma to_int_id x : Cint.is_int x -> Cint.to_int x = x.
Proof.
  unfold Cint.is_int, Cint.to_int. intros H. rewrite Z.mod_small; lia.
Qed.

Lemma to_uint32_id x : Cint.is_uint32 x -> Cint.to_uint32 x = x.
Proof.
  unfold Cint.is_uint32, Cint.to_uint32. intros H. apply Z.mod_small; lia.
Qed.

Lemma to_size_t_id x : 0 <= x < 2 ^ 64 -> Cint.to_size_t x = x.
Proof. unfold Cint.to_size_t. intros H. apply Z.mod_small; lia. Qed.

Lemma to_size_t_neg x : - 2 ^ 64 <= x < 0 -> Cint.to_size_t x = x + 2 ^ 64.
Proof.
  unfold Cint.to_size_t. intros H.
  symmetry. apply (Z.mod_unique_pos _ _ (-1)); lia.
Qed.

(** ** Single bits *)

Lemma land_pow2 m r :
  0 <= r -> Z.land m (2 ^ r) = if Z.testbit m r then 2 ^ r else 0.
Proof.
  intros Hr. apply Z.bits_inj'. intros n Hn.
  rewrite Z.land_spec, Z.pow2_bits_eqb by lia.
  destruct (Z.eqb_spec r n) as [->|Hne].
  - rewrite andb_true_r. destruct (Z.testbit m n) eqn:E.
    + rewrite Z.pow2_bits_eqb, Z.eqb_refl by lia. reflexivity.
    + rewrite Z.bits_0. reflexivity.
  - rewrite andb_false_r. destruct (Z.testbit m r).
    + rewrite Z.pow2_bits_eqb by lia. symmetry. apply Z.eqb_neq. exact Hne.
    + rewrite Z.bits_0. reflexivity.
Qed.

Lemma nonzero_land_pow2 m r :
  0 <= r -> nonzero (Z.land m (2 ^ r)) = Z.testbit m r.
Proof.
  intros Hr. rewrite land_pow2 by exact Hr. unfold nonzero.
  destruct (Z.testbit m r); [|reflexivity].
  apply negb_true_iff, Z.eqb_neq. pose proof (Z.pow_pos_nonneg 2 r). lia.
Qed.

Lemma nonzero_true x : nonzero x = true <-> x <> 0.
Proof. unfold nonzero. rewrite negb_true_iff, Z.eqb_neq. reflexivity. Qed.

Lemma land_lor_absorb a b : Z.land (Z.lor a b) b = b.
Proof.
  apply Z.bits_inj'. intros n _.
  rewrite Z.land_spec, Z.lor_spec. destruct (Z.testbit a n), (Z.testbit b n); reflexivity.
Qed.

Lemma land_lor_keep a b c : Z.land a c = c -> Z.land (Z.lor a b) c = c.
Proof.
  intros H. apply Z.bits_inj'. intros n _.
  apply (f_equal (fun z => Z.testbit z n)) in H.
  rewrite Z.land_spec in H. rewrite Z.land_spec, Z.lor_spec.
  destruct (Z.testbit a n), (Z.testbit b n), (Z.testbit c n); simpl in *; congruence.
Qed.

(** ** The two event translations *)

Section EventsProps.

Context {K : KumaEv}.

Lemma get_events_has_ET m : Z.land (get_events m) EPOLLET = EPOLLET.
Proof.
  unfold get_events.
  repeat match goal with
         | |- context [if ?b then _ else _] => destruct b
         end;
    repeat apply land_lor_keep; reflexivity.
Qed.

Lemma get_kuma_events_error ev :
  Z.land ev EPOLLERR <> 0 \/ Z.land ev EPOLLHUP <> 0 ->
  Z.land (get_kuma_events ev) KUMA_EV_ERROR = KUMA_EV_ERROR.
Proof.
  intros H.
  assert (Hnz : nonzero (Z.land ev (Z.lor EPOLLERR EPOLLHUP)) = true).
  { apply nonzero_true. rewrite Z.land_lor_distr_r, Z.lor_eq_0_iff. tauto. }
  unfold get_kuma_events. rewrite Hnz. apply land_lor_absorb.
Qed.

(** C7. The translation to the native mask sets the edge-trigger flag
    for every portable mask (the empty mask gives the flag alone), a
    mask with the ERROR bit gives both [EPOLLERR] and [EPOLLHUP], and
    the translation back gives the ERROR bit when either of the two is
    reported. *)
Theorem event_translation :
  (forall m, Z.land (get_events m) EPOLLET = EPOLLET) /\
  get_events 0 = EPOLLET /\
  (forall m, Z.land m KUMA_EV_ERROR <> 0 ->
     Z.land (get_events m) EPOLLERR = EPOLLERR /\
     Z.land (get_events m) EPOLLHUP = EPOLLHUP) /\
  (forall ev, Z.land ev EPOLLERR <> 0 \/ Z.land ev EPOLLHUP <> 0 ->
     Z.land (get_kuma_events ev) KUMA_EV_ERROR = KUMA_EV_ERROR).
Proof.
  split; [exact get_events_has_ET|]. split; [reflexivity|]. split.
  - intros m H. apply nonzero_true in H. unfold get_events. rewrite H.
    split; apply Z.bits_inj'; intros n _;
      rewrite !Z.land_spec, !Z.lor_spec;
      destruct (Z.testbit EPOLLERR n), (Z.testbit EPOLLHUP n);
      rewrite ?orb_true_r, ?andb_true_r, ?andb_false_r; reflexivity.
  - exact get_kuma_events_error.
Qed.

End EventsProps.

(** With the usual bit values: a mask with the ERROR bit asks the kernel
    for both conditions, and a hang-up alone is reported as ERROR. *)
Lemma event_translation_witness :
  Z.land (get_events (K:=kuma_ev_124) 4) EPOLLERR = EPOLLERR /\
  Z.land (get_events (K:=kuma_ev_124) 4) EPOLLHUP = EPOLLHUP /\
  Z.land (get_kuma_events (K:=kuma_ev_124) EPOLLHUP) 4 = 4.
Proof.
  destruct (event_translation (K:=kuma_ev_124)) as (_ & _ & H3 & H4).
  destruct (H3 4) as [Ha Hb]; [vm_compute; lia|].
  split; [exact Ha|]. split; [exact Hb|].
  apply (H4 EPOLLHUP). right. vm_compute. lia.
Defined.

Section RoundTrip.

Context {K : KumaEv}.

(** The native mask of a portable mask, when the three portable bits are
    at positions [r], [w] and [e]. *)
Lemma get_events_bits m r w e :
  0 <= r -> 0 <= w -> 0 <= e ->
  KUMA_EV_READ = 2 ^ r -> KUMA_EV_WRITE = 2 ^ w -> KUMA_EV_ERROR = 2 ^ e ->
  get_events m =
    Z.lor (Z.lor (Z.lor EPOLLET (if Z.testbit m r then EPOLLIN else 0))
                 (if Z.testbit m w then EPOLLOUT else 0))
          (if Z.testbit m e then Z.lor EPOLLERR EPOLLHUP else 0).
Proof.
  unfold get_events. intros Hr Hw He -> -> ->.
  rewrite !nonzero_land_pow2 by assumption.
  destruct (Z.testbit m r), (Z.testbit m w), (Z.testbit m e); reflexivity.
Qed.

(** A mask made of the three bits only is the union of those of the
    three that it has. *)
Lemma mask_of_bits m r w e :
  0 <= r -> 0 <= w -> 0 <= e ->
  Z.land m (Z.lor (2 ^ r) (Z.lor (2 ^ w) (2 ^ e))) = m ->
  m = Z.lor (Z.lor (if Z.testbit m r then 2 ^ r else 0)
                   (if Z.testbit m w then 2 ^ w else 0))
            (if Z.testbit m e then 2 ^ e else 0).
Proof.
  intros Hr Hw He H. apply Z.bits_inj'. intros n Hn.
  apply (f_equal (fun z => Z.testbit z n)) in H.
  rewrite Z.land_spec, !Z.lor_spec, !Z.pow2_bits_eqb in H by lia.
  rewrite !Z.lor_spec.
  assert (Hbit : forall p (b : bool), 0 <= p ->
            Z.testbit (if b then 2 ^ p else 0) n = b && (p =? n)).
  { intros p [] Hp; [rewrite Z.pow2_bits_eqb by lia|rewrite Z.bits_0]; reflexivity. }
  rewrite !Hbit by assumption.
  destruct (Z.eqb_spec r n) as [->|_], (Z.eqb_spec w n) as [Ew|_],
           (Z.eqb_spec e n) as [Ee|_];
    try subst w; try subst e;
    destruct (Z.testbit m n) eqn:En; simpl in *;
    rewrite ?En, ?andb_false_r, ?andb_true_r, ?orb_false_r; simpl;
    try reflexivity; try congruence;
    repeat match goal with
           | |- context [Z.testbit m ?p] => destruct (Z.testbit m p); simpl
           end; try reflexivity; congruence.
Qed.

(** C10. When the three portable bits are three different single bits, a
    portable mask made of them only is what the translation to the
    native mask and back returns: no bit is lost, and the edge-trigger
    flag does not show. *)
Theorem get_kuma_events_get_events m :
  KumaEvBits K ->
  Z.land m (Z.lor KUMA_EV_READ (Z.lor KUMA_EV_WRITE KUMA_EV_ERROR)) = m ->
  get_kuma_events (get_events m) = m.
Proof.
  intros [(r & Hr & ER) (w & Hw & EW) (e & He & EE) _ _ _] Hm.
  rewrite (get_events_bits m r w e) by (lia || assumption).
  rewrite ER, EW, EE in Hm.
  pose proof (mask_of_bits m r w e ltac:(lia) ltac:(lia) ltac:(lia) Hm) as Hbits.
  unfold get_kuma_events. rewrite ER, EW, EE.
  destruct (Z.testbit m r), (Z.testbit m w), (Z.testbit m e);
    repeat match goal with
           | |- context [nonzero ?x] =>
               let v := eval vm_compute in (nonzero x) in
               change (nonzero x) with v
           end;
    cbv beta iota zeta; rewrite Hbits; rewrite ?Z.lor_0_r, ?Z.lor_0_l;
    reflexivity.
Qed.

End RoundTrip.

Lemma kuma_ev_124_bits : KumaEvBits kuma_ev_124.
Proof.
  split; simpl; try lia.
  - exists 0. split; [lia|reflexivity].
  - exists 1. split; [lia|reflexivity].
  - exists 2. split; [lia|reflexivity].
Qed.

Lemma get_kuma_events_get_events_witness :
  @get_kuma_events kuma_ev_124 (@get_events kuma_ev_124 5) = 5.
Proof.
  apply (@get_kuma_events_get_events kuma_ev_124 5).
  - exact kuma_ev_124_bits.
  - reflexivity.
Defined.

(** ** The registration table *)

Section TableProps.

Context {O : Outside}.

Lemma items_set_items v (w : World) : items (set_items v w) = v.
Proof. reflexivity. Qed.

Lemma items_set_env k (w : World) : items (set_env k w) = items w.
Proof. reflexivity. Qed.

Lemma at_lookup (tbl : PollItemVector) i x :
  tbl !! Z.to_nat i = Some x -> at_ tbl i = x.
Proof. unfold at_. intros ->. reflexivity. Qed.

Lemma at_alter (tbl : PollItemVector) f i :
  0 <= i < size tbl -> at_ (alter f (Z.to_nat i) tbl) i = f (at_ tbl i).
Proof.
  unfold at_, size. intros H. rewrite list_lookup_alter_eq.
  destruct (lookup_lt_is_Some_2 tbl (Z.to_nat i)) as [x ->]; [lia|reflexivity].
Qed.

Lemma size_alter (tbl : PollItemVector) f i : size (alter f i tbl) = size tbl.
Proof. unfold size. rewrite length_alter. reflexivity. Qed.

Lemma size_resizePollItems (tbl : PollItemVector) d :
  0 <= d -> d < size (resizePollItems d tbl).
Proof.
  intros Hd. unfold resizePollItems.
  destruct (Z.geb_spec d (size tbl)); [|lia].
  unfold size. rewrite length_resize. lia.
Qed.

Lemma resizePollItems_keeps (tbl : PollItemVector) d :
  0 <= d < size tbl -> resizePollItems d tbl = tbl.
Proof.
  intros Hd. unfold resizePollItems.
  destruct (Z.geb_spec d (size tbl)); [lia|reflexivity].
Qed.

Lemma resizePollItems_int_indexed (tbl : PollItemVector) d :
  Cint.is_int d -> int_indexed tbl -> int_indexed (resizePollItems d tbl).
Proof.
  unfold Cint.is_int, int_indexed, resizePollItems. intros Hd Ht.
  destruct (Z.geb_spec d (size tbl)); [|exact Ht].
  unfold size in *. rewrite length_resize. lia.
Qed.

Lemma size_pop_back (tbl : PollItemVector) :
  0 < size tbl -> size (pop_back tbl) = size tbl - 1.
Proof.
  unfold size, pop_back. intros H. rewrite length_take_le; lia.
Qed.

Lemma pop_back_lookup (tbl : PollItemVector) (i : nat) :
  (i < Nat.pred (length tbl))%nat -> pop_back tbl !! i = tbl !! i.
Proof. intros H. unfold pop_back. apply lookup_take_lt. exact H. Qed.

(** The [int max_fd] of [unregisterFd] is the last index of a table that
    [int]s can index, and [-1] for the empty table. *)
Lemma max_fd_int (tbl : PollItemVector) :
  int_indexed tbl ->
  Cint.to_int (Cint.to_size_t (size tbl - 1)) = size tbl - 1.
Proof.
  unfold int_indexed. intros H.
  assert (Hs : 0 <= size tbl) by (unfold size; lia).
  destruct (Z.eq_dec (size tbl) 0) as [E|E].
  - rewrite E. reflexivity.
  - rewrite to_size_t_id by lia. apply to_int_id. unfold Cint.is_int. lia.
Qed.

End TableProps.

(** ** EPoll: registration, update, removal *)

Section EPollProps.

Context {KE : KumaEv} {O : Outside} {KN : Kernel} {CL : Closures}.

Lemma registerFd_negative d ev c w :
  d < 0 -> registerFd d ev c w = (INVALID_PARAM, w, []).
Proof.
  intros H. unfold registerFd.
  destruct (Z.ltb_spec d 0); [reflexivity|lia].
Qed.

(** Whatever the kernel answers, [registerFd] leaves the new
    registration in the slot of a non-negative descriptor. *)
Lemma registerFd_slot d ev c w :
  0 <= d ->
  at_ (items (registerFd d ev c w).1.2) d
  = {| PollItem.fd := d; PollItem.events := ev; PollItem.cb := c |}.
Proof.
  intros Hd. unfold registerFd.
  destruct (Z.ltb_spec d 0); [lia|].
  pose proof (size_resizePollItems (items w) d Hd) as Hsz.
  destruct (epoll_ctl _ _ _ _ _) as [r k].
  assert (Hslot :
    at_ (alter (PollItem.set_cb c) (Z.to_nat d)
           (alter (PollItem.set_events ev) (Z.to_nat d)
              (alter (PollItem.set_fd d) (Z.to_nat d)
                 (resizePollItems d (items w))))) d
    = {| PollItem.fd := d; PollItem.events := ev; PollItem.cb := c |}).
  { rewrite !at_alter by (rewrite ?size_alter; lia). reflexivity. }
  destruct (r <? 0); exact Hslot.
Qed.

Lemma registerFd_result d ev c w :
  0 <= d ->
  let op := register_op (resizePollItems d (items w)) d in
  let r := (epoll_ctl (epfd w) op d (Some (make_evt d ev)) (env w)).1 in
  (registerFd d ev c w).1.1 = if r <? 0 then FAILED else NOERR.
Proof.
  intros Hd op r. unfold registerFd.
  destruct (Z.ltb_spec d 0); [lia|].
  subst r op. destruct (epoll_ctl _ _ _ _ _) as [r k]. simpl.
  destruct (r <? 0); reflexivity.
Qed.

(** C1 (as the code behaves). When the kernel refuses the registration
    of a non-negative descriptor, [registerFd] returns [FAILED], and the
    slot of the descriptor nevertheless holds the descriptor, the mask
    and the callback of the refused call: the slot is written before the
    kernel is asked and is not restored. *)
Theorem registerFd_failure_overwrites_slot d ev c w :
  0 <= d ->
  (epoll_ctl (epfd w) (register_op (resizePollItems d (items w)) d) d
     (Some (make_evt d ev)) (env w)).1 < 0 ->
  (registerFd d ev c w).1.1 = FAILED /\
  at_ (items (registerFd d ev c w).1.2) d
  = {| PollItem.fd := d; PollItem.events := ev; PollItem.cb := c |}.
Proof.
  intros Hd Hr. split.
  - rewrite registerFd_result by exact Hd.
    destruct (Z.ltb_spec
      (epoll_ctl (epfd w) (register_op (resizePollItems d (items w)) d) d
         (Some (make_evt d ev)) (env w)).1 0); [reflexivity|lia].
  - apply registerFd_slot. exact Hd.
Qed.

End EPollProps.

(** Descriptor 3 is registered for reading with callback 1; registering
    it for writing with callback 2 is refused by the kernel.  The call
    fails, and the slot has lost the mask and the callback it had. *)
Lemma registerFd_failure_overwrites_slot_witness :
  let old := Demo.item 3 1 1 in
  let w := Demo.world (replicate 3 PollItem.unused ++ [old]) [] [] (-1) Demo.idle in
  at_ (items w) 3 = old /\
  (registerFd (KE:=kuma_ev_124) (KN:=Demo.kernel) 3 2 (Some 2%nat) w).1.1 = FAILED /\
  at_ (items (registerFd (KE:=kuma_ev_124) (KN:=Demo.kernel) 3 2 (Some 2%nat) w).1.2) 3
  = Demo.item 3 2 2 /\
  Demo.item 3 2 2 <> old.
Proof.
  intros old w. split; [reflexivity|].
  pose proof (registerFd_failure_overwrites_slot (KE:=kuma_ev_124)
                (KN:=Demo.kernel) 3 2 (Some 2%nat) w
                ltac:(lia) ltac:(simpl; lia)) as [H1 H2].
  split; [exact H1|]. split; [exact H2|]. discriminate.
Defined.

Section EPollProps2.

Context {KE : KumaEv} {O : Outside} {KN : Kernel} {CL : Closures}.

(** C3. On a table that [int]s can index: a descriptor that is negative
    or above the last index is refused with [INVALID_PARAM] and nothing
    changes; any other descriptor gives [NOERR], whatever the kernel
    answers to the removal; removing the last index drops exactly the
    last slot, and removing a lower index keeps the length, sets that
    slot to the unused sentinel and leaves the other slots alone. *)
Theorem unregisterFd_cases d w :
  int_indexed (items w) ->
  let max_fd := size (items w) - 1 in
  let res := unregisterFd d w in
  (d < 0 \/ max_fd < d -> res.1.1 = INVALID_PARAM /\ res.1.2 = w) /\
  (0 <= d <= max_fd -> res.1.1 = NOERR) /\
  (0 <= d /\ d = max_fd ->
     items res.1.2 = pop_back (items w) /\
     size (items res.1.2) = size (items w) - 1 /\
     forall i, (i < Z.to_nat max_fd)%nat -> items res.1.2 !! i = items w !! i) /\
  (0 <= d < max_fd ->
     size (items res.1.2) = size (items w) /\
     at_ (items res.1.2) d = PollItem.unused /\
     forall i, i <> Z.to_nat d -> items res.1.2 !! i = items w !! i).
Proof.
  intros Hok max_fd res. subst res. unfold unregisterFd.
  rewrite (max_fd_int _ Hok). fold max_fd.
  destruct (epoll_ctl (epfd w) EPOLL_CTL_DEL d None (env w)) as [r k].
  destruct (Z.ltb_spec d 0) as [Hneg|Hnn]; cbn [orb fst snd].
  { repeat split; intros; try lia; reflexivity. }
  destruct (Z.gtb_spec d max_fd) as [Hgt|Hle]; cbn [orb fst snd].
  { repeat split; intros; try lia; reflexivity. }
  rewrite items_set_env, items_set_items.
  destruct (Z.ltb_spec d max_fd) as [Hlt|Hge].
  - split; [intros; lia|]. split; [reflexivity|]. split; [intros; lia|].
    intros _. split; [apply size_alter|]. split.
    + rewrite at_alter by lia. reflexivity.
    + intros i Hi. apply list_lookup_alter_ne. congruence.
  - assert (d = max_fd) as Heq by lia.
    destruct (Z.eqb_spec d max_fd); [|lia].
    split; [intros; lia|]. split; [reflexivity|]. split; [|intros; lia].
    intros _. split; [reflexivity|]. split.
    + apply size_pop_back. lia.
    + intros i Hi. apply pop_back_lookup. unfold max_fd, size in Hi. lia.
Qed.

(** C6. For a descriptor inside the table whose slot holds a
    registration: when the kernel refuses the change, [updateFd] returns
    [FAILED] and the table is what it was; when the kernel accepts it,
    [updateFd] returns [NOERR] and the slot holds the new mask, its
    descriptor and callback and all other slots being what they were. *)
Theorem updateFd_mask d ev w :
  Cint.is_int d ->
  0 <= d < size (items w) ->
  PollItem.fd (at_ (items w) d) <> INVALID_FD ->
  let r := (epoll_ctl (epfd w) EPOLL_CTL_MOD d (Some (make_evt d ev)) (env w)).1 in
  let res := updateFd d ev w in
  (r < 0 ->
     res.1.1 = FAILED /\ items res.1.2 = items w /\
     PollItem.events (at_ (items res.1.2) d) = PollItem.events (at_ (items w) d)) /\
  (0 <= r ->
     res.1.1 = NOERR /\
     PollItem.events (at_ (items res.1.2) d) = ev /\
     at_ (items res.1.2) d = PollItem.set_events ev (at_ (items w) d) /\
     forall i, i <> Z.to_nat d -> items res.1.2 !! i = items w !! i).
Proof.
  intros Hint Hd Hact r res. subst r res. unfold updateFd.
  destruct (Z.ltb_spec d 0); [lia|].
  rewrite to_size_t_id by (unfold Cint.is_int in Hint; lia).
  destruct (Z.geb_spec d (size (items w))); [lia|].
  destruct (Z.eqb_spec INVALID_FD (PollItem.fd (at_ (items w) d))); [congruence|].
  cbn [orb]. destruct (epoll_ctl _ _ _ _ _) as [r k]. cbn [fst snd].
  destruct (Z.ltb_spec r 0); cbn [fst snd].
  - split; [|intros; lia]. intros _. repeat split; reflexivity.
  - split; [intros; lia|]. intros _. split; [reflexivity|].
    rewrite items_set_env, items_set_items.
    rewrite at_alter by lia. split; [reflexivity|]. split; [reflexivity|].
    intros i Hi. apply list_lookup_alter_ne. congruence.
Qed.

(** C8 (as the code behaves). For a descriptor that is negative or not
    below the size of the table, [updateFd] returns [FAILED] — not
    [INVALID_PARAM] — and does nothing else. *)
Theorem updateFd_bad_descriptor_is_FAILED d ev w :
  Cint.is_int d ->
  d < 0 \/ size (items w) <= d ->
  updateFd d ev w = (FAILED, w, []) /\ (updateFd d ev w).1.1 <> INVALID_PARAM.
Proof.
  intros Hint Hd.
  assert (H : updateFd d ev w = (FAILED, w, [])).
  { unfold updateFd. destruct (Z.ltb_spec d 0) as [|Hnn]; [reflexivity|].
    rewrite to_size_t_id by (unfold Cint.is_int in Hint; lia).
    destruct (Z.geb_spec d (size (items w))); [reflexivity|lia]. }
  rewrite H. split; [reflexivity|discriminate].
Qed.

(** C2. [wait] returns [NOERR] for every budget and every answer of
    [epoll_wait].  When the answer is negative, no callback is called
    and the loop object is untouched; the trace has no error line when
    [errno] is [EINTR], and one error line otherwise. *)
Theorem wait_returns_NOERR wait_ms w :
  let timeout := Cint.to_int wait_ms in
  let r := (epoll_wait (epfd w) MAX_EVENT_NUM timeout (env w)).1 in
  let k := (epoll_wait (epfd w) MAX_EVENT_NUM timeout (env w)).2 in
  let sys := SysEpollWait (epfd w) MAX_EVENT_NUM timeout in
  let res := wait wait_ms w in
  res.1.1 = NOERR /\
  (nfds r < 0 -> errno r = EINTR ->
     res = (NOERR, set_env k w, [sys; KumaTrace INFO])) /\
  (nfds r < 0 -> errno r <> EINTR ->
     res = (NOERR, set_env k w, [sys; KumaTrace ERROR; KumaTrace INFO])) /\
  (nfds r < 0 -> forall f kev, CallIO f kev ∉ res.2).
Proof.
  intros timeout r k sys res. subst res r k sys. unfold wait. fold timeout.
  destruct (epoll_wait (epfd w) MAX_EVENT_NUM timeout (env w)) as [r k]. simpl.
  destruct (Z.ltb_spec (nfds r) 0) as [Hneg|Hpos].
  - split; [reflexivity|]. split; [|split].
    + intros _ E. rewrite E. reflexivity.
    + intros _ E. destruct (Z.eqb_spec (errno r) EINTR); [congruence|reflexivity].
    + intros _ f kev Hin. simpl in Hin.
      destruct (negb (errno r =? EINTR)); simpl in Hin;
        repeat match goal with
               | H : _ ∈ _ :: _ |- _ => apply elem_of_cons in H; destruct H as [H|H]
               | H : _ ∈ [] |- _ => apply elem_of_nil in H; destruct H
               | H : CallIO _ _ = _ |- _ => discriminate H
               end.
  - destruct (dispatch _ _) as [w' t]. simpl.
    split; [reflexivity|]. repeat split; intros; lia.
Qed.

End EPollProps2.

(** The table stays indexable by [int]s under the three operations. *)

Section TableInvariant.

Context {KE : KumaEv} {O : Outside} {KN : Kernel}.

Lemma int_indexed_nil : int_indexed ([] : PollItemVector).
Proof. unfold int_indexed, size. simpl. lia. Qed.

Lemma registerFd_int_indexed d ev c w :
  Cint.is_int d -> int_indexed (items w) ->
  int_indexed (items (registerFd d ev c w).1.2).
Proof.
  intros Hd Hw. unfold registerFd. destruct (d <? 0); [exact Hw|].
  destruct (epoll_ctl _ _ _ _ _) as [r k].
  assert (H : int_indexed
    (alter (PollItem.set_cb c) (Z.to_nat d)
       (alter (PollItem.set_events ev) (Z.to_nat d)
          (alter (PollItem.set_fd d) (Z.to_nat d)
             (resizePollItems d (items w)))))).
  { unfold int_indexed. rewrite !size_alter.
    apply resizePollItems_int_indexed; assumption. }
  destruct (r <? 0); exact H.
Qed.

Lemma unregisterFd_int_indexed d w :
  int_indexed (items w) -> int_indexed (items (unregisterFd d w).1.2).
Proof.
  intros Hw. unfold unregisterFd.
  destruct (epoll_ctl _ _ _ _ _) as [r k].
  destruct ((d <? 0) || _); [exact Hw|].
  cbn [fst snd]. rewrite items_set_env, items_set_items.
  destruct (d <? _); [|destruct (d =? _)]; unfold int_indexed in *.
  - rewrite size_alter. exact Hw.
  - unfold size, pop_back in *. rewrite length_take. lia.
  - exact Hw.
Qed.

Lemma updateFd_int_indexed d ev w :
  int_indexed (items w) -> int_indexed (items (updateFd d ev w).1.2).
Proof.
  intros Hw. unfold updateFd. destruct (_ || _); [exact Hw|].
  destruct (epoll_ctl _ _ _ _ _) as [r k].
  destruct (r <? 0); cbn [fst snd]; [exact Hw|].
  rewrite items_set_env, items_set_items.
  unfold int_indexed. rewrite size_alter. exact Hw.
Qed.

End TableInvariant.

(** Descriptors 0 and 2 are registered in a table of three slots, and the
    kernel refuses every [epoll_ctl].  Removing 2, the last index, pops
    the slot. *)
Lemma unregisterFd_cases_witness :
  let w := Demo.world [Demo.item 0 1 1; PollItem.unused; Demo.item 2 1 2]
             [] [] (-1) Demo.idle in
  int_indexed (items w) /\
  (unregisterFd (KN:=Demo.kernel) 2 w).1.1 = NOERR /\
  items (unregisterFd (KN:=Demo.kernel) 2 w).1.2
  = [Demo.item 0 1 1; PollItem.unused].
Proof.
  intros w.
  assert (Hok : int_indexed (items w)) by (unfold int_indexed, size; simpl; lia).
  destruct (unregisterFd_cases (KN:=Demo.kernel) 2 w Hok) as (_ & H2 & H3 & _).
  split; [exact Hok|]. split.
  - apply H2. unfold size. simpl. lia.
  - destruct H3 as [H3 _]; [unfold size; simpl; lia|]. exact H3.
Defined.

(** Descriptor 2 is registered for reading and the kernel accepts the
    change to writing. *)
Lemma updateFd_mask_witness :
  let w := Demo.world [Demo.item 0 1 1; PollItem.unused; Demo.item 2 1 2]
             [] [] 0 Demo.idle in
  (updateFd (KE:=kuma_ev_124) (KN:=Demo.kernel) 2 2 w).1.1 = NOERR /\
  PollItem.events
    (at_ (items (updateFd (KE:=kuma_ev_124) (KN:=Demo.kernel) 2 2 w).1.2) 2) = 2.
Proof.
  intros w.
  destruct (updateFd_mask (KE:=kuma_ev_124) (KN:=Demo.kernel) 2 2 w) as [_ H].
  - unfold Cint.is_int. lia.
  - unfold size. simpl. lia.
  - simpl. unfold INVALID_FD. lia.
  - destruct H as (H1 & H2 & _); [simpl; lia|]. split; [exact H1|exact H2].
Defined.

(** [updateFd(-1, READ)] on the empty table. *)
Lemma updateFd_bad_descriptor_is_FAILED_witness :
  let w := Demo.world [] [] [] 0 Demo.idle in
  updateFd (KE:=kuma_ev_124) (KN:=Demo.kernel) (-1) 1 w = (FAILED, w, []) /\
  (updateFd (KE:=kuma_ev_124) (KN:=Demo.kernel) (-1) 1 w).1.1 <> INVALID_PARAM.
Proof.
  intros w.
  apply (updateFd_bad_descriptor_is_FAILED (KE:=kuma_ev_124) (KN:=Demo.kernel)).
  - unfold Cint.is_int. lia.
  - left. lia.
Defined.

(** An interrupted [epoll_wait]: descriptor 0 is registered, nothing is
    dispatched and no error line is written. *)
Lemma wait_returns_NOERR_witness :
  let w := Demo.world [Demo.item 0 1 1] [] [] 0
             {| nfds := -1; errno := EINTR; ready := [] |} in
  wait (KE:=kuma_ev_124) (KN:=Demo.kernel) (CL:=Demo.closures) 1000 w
  = (NOERR, w, [SysEpollWait 3 MAX_EVENT_NUM 1000; KumaTrace INFO]).
Proof.
  intros w.
  destruct (wait_returns_NOERR (KE:=kuma_ev_124) (KN:=Demo.kernel)
              (CL:=Demo.closures) 1000 w) as (_ & H & _).
  apply H; [simpl; lia|reflexivity].
Defined.

(** ** EventLoopImpl: one iteration, and the exit of [loop] *)

Section LoopProps.

Context {KE : KumaEv} {O : Outside} {KN : Kernel} {CL : Closures}.

Lemma queue_set_queue q (w : World) : queue (set_queue q w) = q.
Proof. reflexivity. Qed.

Lemma run_task_trace cb (w : World) : (run_task cb w).2 = task_call cb.
Proof. destruct cb; reflexivity. Qed.

Lemma task_calls_app q1 q2 :
  task_calls (q1 ++ q2) = task_calls q1 ++ task_calls q2.
Proof. unfold task_calls. apply bind_app. Qed.

(** A task leaves what is queued in place. *)
Lemma run_task_queue cb q (w : World) :
  tasks_only_enqueue ->
  exists more, queue (run_task cb (set_queue q w)).1 = q ++ more.
Proof.
  intros Henq. destruct cb as [f|]; simpl.
  - destruct (Henq f (set_queue q w)) as [more Hm]. exists more. exact Hm.
  - exists []. rewrite app_nil_r. reflexivity.
Qed.

Lemma drain_S n (w : World) :
  drain (S n) w =
  match dequeue w with
  | None => Some (w, [])
  | Some (cb, w1) =>
      match drain n (run_task cb w1).1 with
      | Some (w3, ts) => Some (w3, (run_task cb w1).2 ++ ts)
      | None => None
      end
  end.
Proof.
  simpl. destruct (dequeue w) as [[cb w1]|]; [|reflexivity].
  destruct (run_task cb w1). reflexivity.
Qed.

(** The drain loop ends on an empty queue. *)
Lemma drain_empties fuel : forall w w' t,
  drain fuel w = Some (w', t) -> queue w' = [].
Proof.
  induction fuel as [|n IH]; intros w w' t H; [discriminate|].
  simpl in H. unfold dequeue in H.
  destruct (queue w) as [|cb q] eqn:Eq.
  - inversion H; subst. exact Eq.
  - destruct (run_task cb (set_queue q w)) as [w2 t0].
    destruct (drain n w2) as [[w3 ts]|] eqn:Ed; [|discriminate].
    inversion H; subst. eapply IH. exact Ed.
Qed.

(** The drain loop runs the entries that were queued when it started, in
    the order of the queue, before anything that was queued meanwhile. *)
Lemma drain_fifo fuel :
  tasks_only_enqueue ->
  forall w w' t, drain fuel w = Some (w', t) ->
  exists rest, t = task_calls (queue w) ++ rest.
Proof.
  intros Henq. induction fuel as [|n IH]; intros w w' t H; [discriminate|].
  simpl in H. unfold dequeue in H.
  destruct (queue w) as [|cb q] eqn:Eq.
  - inversion H; subst. exists []. reflexivity.
  - pose proof (run_task_trace cb (set_queue q w)) as Ht.
    destruct (run_task_queue cb q w Henq) as [more Hm].
    destruct (run_task cb (set_queue q w)) as [w2 t0]. simpl in Ht, Hm.
    destruct (drain n w2) as [[w3 ts]|] eqn:Ed; [|discriminate].
    inversion H; subst. destruct (IH _ _ _ Ed) as [rest Hr].
    rewrite Hm, task_calls_app in Hr. exists (task_calls more ++ rest).
    rewrite Hr. change (task_calls (cb :: q)) with (task_call cb ++ task_calls q).
    rewrite <- !app_assoc. reflexivity.
Qed.

(** When no task touches the queue, the drain loop finishes after one
    round per entry, having run exactly the queue. *)
Lemma drain_quiet :
  (forall f w, queue (call_task f w) = queue w) ->
  forall w, exists w',
    drain (S (length (queue w))) w = Some (w', task_calls (queue w)).
Proof.
  intros Hq w. remember (queue w) as q eqn:Eq. revert w Eq.
  induction q as [|cb q IH]; intros w Eq.
  - exists w. simpl. unfold dequeue. rewrite <- Eq. reflexivity.
  - assert (Hq' : queue (run_task cb (set_queue q w)).1 = q).
    { destruct cb; simpl; [apply Hq|reflexivity]. }
    pose proof (run_task_trace cb (set_queue q w)) as Ht.
    destruct (IH (run_task cb (set_queue q w)).1 (eq_sym Hq')) as [w' Hd].
    exists w'. change (length (cb :: q)) with (S (length q)).
    rewrite drain_S. unfold dequeue. rewrite <- Eq.
    rewrite Hd, Ht. reflexivity.
Qed.

(** The budget handed to [wait] is the value the timers left, cut down to
    the caller's maximum. *)
Lemma clamp_min max_wait_ms after :
  Cint.is_uint32 max_wait_ms ->
  clamp max_wait_ms after = Z.min (Cint.to_ulong after) max_wait_ms /\
  0 <= clamp max_wait_ms after <= max_wait_ms.
Proof.
  unfold Cint.is_uint32, clamp. intros Hm.
  assert (Hu : 0 <= Cint.to_ulong after).
  { unfold Cint.to_ulong. apply Z.mod_pos_bound. lia. }
  destruct (Z.gtb_spec (Cint.to_ulong after) max_wait_ms).
  - rewrite to_uint32_id by (unfold Cint.is_uint32; lia). lia.
  - rewrite to_uint32_id by (unfold Cint.is_uint32; lia). lia.
Qed.

(** The drain loop, when it finishes, has run the entries that were
    queued when it started, then those queued meanwhile, each taken out
    of the queue and called in turn. *)
Lemma drain_exact fuel :
  tasks_only_enqueue ->
  forall w w' t, drain fuel w = Some (w', t) ->
  exists more,
    t = task_calls (queue w ++ more) /\ w' = run_tasks (queue w ++ more) w.
Proof.
  intros Henq. induction fuel as [|n IH]; intros w w' t H; [discriminate|].
  rewrite drain_S in H. unfold dequeue in H.
  destruct (queue w) as [|cb q] eqn:Eq.
  - inversion H; subst. exists []. split; reflexivity.
  - destruct (run_task_queue cb q w Henq) as [more Hm].
    destruct (drain n (run_task cb (set_queue q w)).1) as [[w3 ts]|] eqn:Ed;
      [|discriminate].
    inversion H; subst. destruct (IH _ _ _ Ed) as (more' & Ht & Hw).
    rewrite Hm in Ht, Hw. exists (more ++ more').
    rewrite run_task_trace, Ht, Hw, <- !app_assoc. split; [reflexivity|].
    cbn [app]. unfold run_tasks at 2. cbn [foldl]. unfold step_task at 2.
    rewrite Eq. reflexivity.
Qed.

(** When no task touches the queue, the entries run are exactly those
    that were queued. *)
Lemma drain_quiet_exact fuel :
  (forall f w, queue (call_task f w) = queue w) ->
  forall w w' t, drain fuel w = Some (w', t) ->
  t = task_calls (queue w) /\ w' = run_tasks (queue w) w.
Proof.
  intros Hq. induction fuel as [|n IH]; intros w w' t H; [discriminate|].
  rewrite drain_S in H. unfold dequeue in H.
  destruct (queue w) as [|cb q] eqn:Eq.
  - inversion H; subst. split; reflexivity.
  - assert (Hq' : queue (run_task cb (set_queue q w)).1 = q).
    { destruct cb; simpl; [apply Hq|reflexivity]. }
    destruct (drain n (run_task cb (set_queue q w)).1) as [[w3 ts]|] eqn:Ed;
      [|discriminate].
    inversion H; subst. destruct (IH _ _ _ Ed) as (Ht & Hw).
    rewrite Hq' in Ht, Hw. rewrite run_task_trace, Ht, Hw.
    split; [reflexivity|].
    unfold run_tasks at 2. cbn [foldl]. unfold step_task at 2.
    rewrite Eq. reflexivity.
Qed.


(** When no task touches the queue, one round of fuel per queued entry (and
    one more) is enough for the iteration to finish, and the tasks it runs
    are exactly the queue. *)
Lemma loopOnce_quiet max_wait_ms w :
  (forall f w, queue (call_task f w) = queue w) ->
  exists w1,
    drain (S (length (queue w))) w = Some (w1, task_calls (queue w)) /\
    let after := (checkExpire max_wait_ms w1).1 in
    let w2 := (checkExpire max_wait_ms w1).2 in
    let budget := clamp max_wait_ms after in
    loopOnce (S (length (queue w))) max_wait_ms w
    = Some ((wait budget w2).1.2,
            task_calls (queue w)
              ++ [CallCheckExpire max_wait_ms; CallPollWait budget]
              ++ (wait budget w2).2).
Proof.
  intros Hq. destruct (drain_quiet Hq w) as [w1 Hd]. exists w1.
  split; [exact Hd|]. intros after w2 budget. unfold loopOnce. rewrite Hd.
  subst budget after w2.
  destruct (checkExpire max_wait_ms w1) as [a w2]. cbn [fst snd].
  destruct (wait (clamp max_wait_ms a) w2) as [[r w3] t3]. reflexivity.
Qed.

End LoopProps.

Section LoopExit.

Context {KE : KumaEv} {O : Outside} {KN : Kernel} {CL : Closures}.

(** The [while] loop of [loop] is left only with the stop flag set. *)
Lemma loop_while_stopped fuel max_wait_ms : forall w w' t,
  loop_while fuel max_wait_ms w = Some (w', t) -> stopped w' = true.
Proof.
  induction fuel as [|n IH]; intros w w' t H; [discriminate|].
  simpl in H. destruct (stopped w) eqn:Es.
  - inversion H; subst. exact Es.
  - destruct (loopOnce n max_wait_ms w) as [[w1 t1]|]; [|discriminate].
    destruct (loop_while n max_wait_ms w1) as [[w2 t2]|] eqn:El; [|discriminate].
    inversion H; subst. eapply IH. exact El.
Qed.

(** Every entry of the listener list is notified, once, in the order of
    the list. *)
Lemma notify_stopped_trace ls : forall w,
  (notify_stopped ls w).2 = map CallLoopStopped ls.
Proof.
  induction ls as [|l ls IH]; intros w; [reflexivity|].
  simpl. specialize (IH (loopStopped l w)).
  destruct (notify_stopped ls (loopStopped l w)) as [w' t].
  simpl in *. rewrite IH. reflexivity.
Qed.

Lemma listeners_set_listeners ls (w : World) : listeners (set_listeners ls w) = ls.
Proof. reflexivity. Qed.

(** The listener loop applies [loopStopped] for each entry in turn. *)
Lemma notify_stopped_world ls : forall w,
  (notify_stopped ls w).1 = stop_all ls w.
Proof.
  induction ls as [|l ls IH]; intros w; [reflexivity|].
  simpl. specialize (IH (loopStopped l w)).
  destruct (notify_stopped ls (loopStopped l w)) as [w' t].
  simpl in *. exact IH.
Qed.

Lemma notified_app t1 t2 : notified (t1 ++ t2) = notified t1 ++ notified t2.
Proof. unfold notified. apply bind_app. Qed.

Lemma notified_stopped_calls (ls : list Listener) :
  notified (map CallLoopStopped ls) = ls.
Proof.
  induction ls as [|l ls IH]; [reflexivity|].
  simpl. unfold notified in *. cbn [mbind list_bind]. rewrite IH. reflexivity.
Qed.

Lemma notified_task_calls q : notified (task_calls q) = [].
Proof.
  induction q as [|cb q IH]; [reflexivity|].
  change (task_calls (cb :: q)) with (task_call cb ++ task_calls q).
  rewrite notified_app, IH. destruct cb; reflexivity.
Qed.

Lemma notified_drain fuel : forall w w' t,
  drain fuel w = Some (w', t) -> notified t = [].
Proof.
  induction fuel as [|n IH]; intros w w' t H; [discriminate|].
  rewrite drain_S in H. destruct (dequeue w) as [[cb w1]|].
  - destruct (drain n (run_task cb w1).1) as [[w3 ts]|] eqn:Ed; [|discriminate].
    inversion H; subst. rewrite notified_app, (IH _ _ _ Ed), run_task_trace.
    destruct cb; reflexivity.
  - inversion H; subst. reflexivity.
Qed.

Lemma notified_dispatch evs : forall w, notified (dispatch evs w).2 = [].
Proof.
  induction evs as [|e evs IH]; intros w; [reflexivity|].
  cbn [dispatch]. cbv zeta.
  destruct (Cint.to_size_t _ <? _); [destruct (PollItem.cb _)|];
    match goal with
    | |- context [dispatch evs ?v] =>
        specialize (IH v); destruct (dispatch evs v) as [w2 t2]
    end; cbn [fst snd] in *; rewrite ?notified_app, IH; reflexivity.
Qed.

Lemma notified_wait wait_ms w : notified (wait wait_ms w).2 = [].
Proof.
  unfold wait. destruct (epoll_wait _ _ _ _) as [r k].
  destruct (nfds r <? 0).
  - cbn [snd]. destruct (negb _); reflexivity.
  - match goal with
    | |- context [dispatch ?evs ?v] =>
        pose proof (notified_dispatch evs v) as Hd;
        destruct (dispatch evs v) as [w' t]
    end.
    cbn [fst snd] in *. change (notified (?x :: t)) with (notified t).
    exact Hd.
Qed.

Lemma notified_loopOnce fuel max_wait_ms w w' t :
  loopOnce fuel max_wait_ms w = Some (w', t) -> notified t = [].
Proof.
  unfold loopOnce. destruct (drain fuel w) as [[w1 t1]|] eqn:Ed; [|discriminate].
  destruct (checkExpire max_wait_ms w1) as [a w2].
  pose proof (notified_wait (clamp max_wait_ms a) w2) as Hw.
  destruct (wait (clamp max_wait_ms a) w2) as [[r w3] t3]. cbn [snd] in Hw.
  intros H. inversion H; subst.
  rewrite notified_app, (notified_drain _ _ _ _ Ed). cbn [app]. exact Hw.
Qed.

Lemma notified_loop_while fuel max_wait_ms : forall w w' t,
  loop_while fuel max_wait_ms w = Some (w', t) -> notified t = [].
Proof.
  induction fuel as [|n IH]; intros w w' t H; [discriminate|].
  simpl in H. destruct (stopped w).
  - inversion H; subst. reflexivity.
  - destruct (loopOnce n max_wait_ms w) as [[w1 t1]|] eqn:E1; [|discriminate].
    destruct (loop_while n max_wait_ms w1) as [[w2 t2]|] eqn:E2; [|discriminate].
    inversion H; subst.
    rewrite notified_app, (notified_loopOnce _ _ _ _ _ E1), (IH _ _ _ E2).
    reflexivity.
Qed.

Lemma filter_eq_absent l (ls : list Listener) :
  l ∉ ls -> filter (fun x => x = l) ls = [].
Proof.
  induction ls as [|x ls IH]; intros H; [reflexivity|].
  rewrite filter_cons. destruct (decide (x = l)) as [->|Hne].
  - exfalso. apply H. left.
  - apply IH. intros Hin. apply H. right. exact Hin.
Qed.

Lemma filter_eq_once l (ls : list Listener) :
  NoDup ls -> l ∈ ls -> length (filter (fun x => x = l) ls) = 1%nat.
Proof.
  induction 1 as [|x ls Hx Hnd IH]; intros Hin.
  { apply elem_of_nil in Hin. destruct Hin. }
  rewrite filter_cons. destruct (decide (x = l)) as [->|Hne].
  - rewrite (filter_eq_absent l ls Hx). reflexivity.
  - apply elem_of_cons in Hin as [Hin|Hin]; [congruence|]. exact (IH Hin).
Qed.


End LoopExit.

Lemma demo_tasks_only_enqueue :
  tasks_only_enqueue (O:=Demo.outside) (CL:=Demo.closures).
Proof.
  intros f w. destruct f as [|[|f]]; simpl.
  - exists []. rewrite app_nil_r. reflexivity.
  - exists [Some 2%nat]. reflexivity.
  - exists []. rewrite app_nil_r. reflexivity.
Qed.

(** From here on the closures, listeners and kernel are those of [Demo]. *)
Import Demo.


(** With tasks that queue themselves again, a queue that holds one task
    holds it after every round of the drain loop. *)
Lemma spin_round (w : World) :
  queue w = [Some 0%nat] ->
  dequeue w = Some (Some 0%nat, set_queue [] w) /\
  queue (run_task (CL:=DemoSpin.closures) (Some 0%nat) (set_queue [] w)).1
  = [Some 0%nat].
Proof.
  intros Hq. unfold dequeue. rewrite Hq. split; reflexivity.
Qed.

Lemma spin_drain_rounds n : forall w : World,
  queue w = [Some 0%nat] ->
  queue (drain_rounds (CL:=DemoSpin.closures) n w).1 = [Some 0%nat] /\
  (drain_rounds (CL:=DemoSpin.closures) n w).2 = replicate n (CallTask 0%nat).
Proof.
  induction n as [|n IH]; intros w Hq; [split; [exact Hq|reflexivity]|].
  destruct (spin_round w Hq) as [Hd Hq'].
  cbn [drain_rounds]. rewrite Hd.
  destruct (IH _ Hq') as [IH1 IH2].
  cbn [run_task fst snd] in *.
  destruct (drain_rounds n _) as [w3 ts]. cbn [fst snd] in *.
  split; [exact IH1|]. rewrite IH2. reflexivity.
Qed.

Lemma spin_drain fuel : forall w : World,
  queue w = [Some 0%nat] -> drain (CL:=DemoSpin.closures) fuel w = None.
Proof.
  induction fuel as [|n IH]; intros w Hq; [reflexivity|].
  destruct (spin_round w Hq) as [Hd Hq'].
  rewrite drain_S, Hd, (IH _ Hq'). reflexivity.
Qed.




(** * Further properties of EPoll.cpp *)

(** ** Registration *)

Section RegisterProps.

Context {KE : KumaEv} {O : Outside} {KN : Kernel}.

(** The table and the trace that [registerFd] leaves for a non-negative
    descriptor. *)
Lemma registerFd_items d ev c w :
  0 <= d ->
  items (registerFd d ev c w).1.2
  = alter (PollItem.set_cb c) (Z.to_nat d)
      (alter (PollItem.set_events ev) (Z.to_nat d)
         (alter (PollItem.set_fd d) (Z.to_nat d)
            (resizePollItems d (items w)))).
Proof.
  intros Hd. unfold registerFd. destruct (Z.ltb_spec d 0); [lia|].
  destruct (epoll_ctl _ _ _ _ _) as [r k]. destruct (r <? 0); reflexivity.
Qed.

Lemma registerFd_trace d ev c w :
  0 <= d ->
  let op := register_op (resizePollItems d (items w)) d in
  let r := (epoll_ctl (epfd w) op d (Some (make_evt d ev)) (env w)).1 in
  (registerFd d ev c w).2
  = [SysEpollCtl (epfd w) op d (Some (make_evt d ev));
     KumaTrace (if r <? 0 then ERROR else INFO)].
Proof.
  intros Hd op r. subst op r. unfold registerFd.
  destruct (Z.ltb_spec d 0); [lia|].
  destruct (epoll_ctl _ _ _ _ _) as [r k]. cbn [fst].
  destruct (r <? 0); reflexivity.
Qed.

Lemma epfd_registerFd d ev c w : epfd (registerFd d ev c w).1.2 = epfd w.
Proof.
  unfold registerFd. destruct (d <? 0); [reflexivity|].
  destruct (epoll_ctl _ _ _ _ _) as [r k]. destruct (r <? 0); reflexivity.
Qed.

Lemma length_resizePollItems (tbl : PollItemVector) d :
  0 <= d ->
  length (resizePollItems d tbl) = Nat.max (length tbl) (Z.to_nat (d + 1)).
Proof.
  intros Hd. unfold resizePollItems, size.
  destruct (Z.geb_spec d (Z.of_nat (length tbl))).
  - rewrite length_resize. lia.
  - lia.
Qed.

Lemma lookup_resizePollItems_old (tbl : PollItemVector) d i :
  (i < length tbl)%nat -> resizePollItems d tbl !! i = tbl !! i.
Proof.
  intros Hi. unfold resizePollItems, size.
  destruct (Z.geb_spec d (Z.of_nat (length tbl))); [|reflexivity].
  apply lookup_resize; lia.
Qed.

Lemma lookup_resizePollItems_new (tbl : PollItemVector) d i :
  (length tbl <= i)%nat -> (i < length (resizePollItems d tbl))%nat ->
  resizePollItems d tbl !! i = Some PollItem.unused.
Proof.
  unfold resizePollItems, size.
  destruct (Z.geb_spec d (Z.of_nat (length tbl))); intros H1 H2; [|lia].
  rewrite length_resize in H2. apply lookup_resize_new; lia.
Qed.

(** The slot that [registerFd] looks at after growing the table is the
    slot the table had, or an unused one. *)
Lemma at_resizePollItems (tbl : PollItemVector) d :
  0 <= d -> at_ (resizePollItems d tbl) d = at_ tbl d.
Proof.
  intros Hd. unfold at_.
  destruct (Nat.lt_ge_cases (Z.to_nat d) (length tbl)) as [Hlt|Hge].
  - rewrite lookup_resizePollItems_old by exact Hlt. reflexivity.
  - rewrite lookup_resizePollItems_new.
    + rewrite (lookup_ge_None_2 tbl) by lia. reflexivity.
    + lia.
    + rewrite length_resizePollItems by exact Hd. lia.
Qed.

(** X1. When the kernel accepts the registration of a non-negative
    descriptor, [registerFd] returns [NOERR], the slot of the descriptor
    holds the descriptor, the mask and the callback of the call, and one
    [epoll_ctl] and one information line are what the call did. *)
Theorem registerFd_accepted d ev c w :
  0 <= d ->
  0 <= (epoll_ctl (epfd w) (register_op (resizePollItems d (items w)) d) d
          (Some (make_evt d ev)) (env w)).1 ->
  (registerFd d ev c w).1.1 = NOERR /\
  at_ (items (registerFd d ev c w).1.2) d
  = {| PollItem.fd := d; PollItem.events := ev; PollItem.cb := c |} /\
  (registerFd d ev c w).2
  = [SysEpollCtl (epfd w) (register_op (resizePollItems d (items w)) d) d
       (Some (make_evt d ev));
     KumaTrace INFO].
Proof.
  intros Hd Hr.
  assert (Hlt : ((epoll_ctl (epfd w)
                    (register_op (resizePollItems d (items w)) d) d
                    (Some (make_evt d ev)) (env w)).1 <? 0) = false)
    by (apply Z.ltb_ge; exact Hr).
  split; [|split].
  - rewrite registerFd_result by exact Hd. rewrite Hlt. reflexivity.
  - apply registerFd_slot. exact Hd.
  - rewrite registerFd_trace by exact Hd. cbv zeta. rewrite Hlt. reflexivity.
Qed.

(** X2. Whatever the descriptor and whatever the kernel answers,
    [registerFd] leaves the slots of all other descriptors as they were
    and never shrinks the table: a negative descriptor changes nothing,
    and for a descriptor [d >= 0] the table has [max(size, d + 1)] slots,
    those added being unused. *)
Theorem registerFd_other_slots d ev c w :
  let tbl := items w in
  let tbl' := items (registerFd d ev c w).1.2 in
  size tbl' = (if d <? 0 then size tbl else Z.max (size tbl) (d + 1)) /\
  (forall i, Z.of_nat i <> d -> (i < length tbl)%nat -> tbl' !! i = tbl !! i) /\
  (forall i, Z.of_nat i <> d -> (length tbl <= i < length tbl')%nat ->
     tbl' !! i = Some PollItem.unused).
Proof.
  intros tbl tbl'. subst tbl tbl'.
  destruct (Z.ltb_spec d 0) as [Hneg|Hd].
  { rewrite registerFd_negative by exact Hneg. cbn [fst snd].
    split; [reflexivity|]. split; [reflexivity|]. intros i _ H. lia. }
  rewrite registerFd_items by exact Hd.
  split; [|split].
  - rewrite !size_alter. unfold size.
    rewrite length_resizePollItems by exact Hd. lia.
  - intros i Hi Hlt.
    rewrite !list_lookup_alter_ne by lia.
    apply lookup_resizePollItems_old. exact Hlt.
  - intros i Hi Hrange. rewrite !length_alter in Hrange.
    rewrite !list_lookup_alter_ne by lia.
    apply lookup_resizePollItems_new; lia.
Qed.

Lemma register_op_cases (tbl : PollItemVector) d :
  0 <= d ->
  register_op (resizePollItems d tbl) d
  = if INVALID_FD =? PollItem.fd (at_ tbl d) then EPOLL_CTL_ADD else EPOLL_CTL_MOD.
Proof.
  intros Hd. unfold register_op. rewrite at_resizePollItems by exact Hd.
  destruct (INVALID_FD =? PollItem.fd (at_ tbl d)); reflexivity.
Qed.

(** X3. [registerFd] asks the kernel to add the descriptor when the
    descriptor is beyond the table or its slot is unused.  Once
    [registerFd] has been called for a descriptor, the next call for it
    asks the kernel to modify — also when the first call was refused. *)
Theorem registerFd_add_then_mod d ev c ev2 c2 w :
  0 <= d ->
  let w1 := (registerFd d ev c w).1.2 in
  (PollItem.fd (at_ (items w) d) = INVALID_FD ->
     head (registerFd d ev c w).2
     = Some (SysEpollCtl (epfd w) EPOLL_CTL_ADD d (Some (make_evt d ev)))) /\
  head (registerFd d ev2 c2 w1).2
  = Some (SysEpollCtl (epfd w) EPOLL_CTL_MOD d (Some (make_evt d ev2))).
Proof.
  intros Hd w1. split.
  - intros Hun. rewrite registerFd_trace by exact Hd. cbv zeta.
    rewrite register_op_cases by exact Hd. rewrite Hun. reflexivity.
  - rewrite registerFd_trace by exact Hd. cbv zeta.
    rewrite register_op_cases by exact Hd.
    subst w1. rewrite epfd_registerFd, registerFd_slot by exact Hd.
    cbn [PollItem.fd]. destruct (Z.eqb_spec INVALID_FD d) as [E|_].
    + unfold INVALID_FD in E. lia.
    + reflexivity.
Qed.

End RegisterProps.

(** ** Invariants of the table *)

Section TableOk.

Context {KE : KumaEv} {O : Outside} {KN : Kernel}.

Lemma slots_ok_alter_same (tbl : PollItemVector) f d :
  0 <= d ->
  (forall it, PollItem.fd (f it) = d) ->
  slots_ok tbl -> slots_ok (alter f (Z.to_nat d) tbl).
Proof.
  intros Hd Hf Hok i it Hi.
  destruct (decide (i = Z.to_nat d)) as [->|Hne].
  - rewrite list_lookup_alter_eq in Hi.
    destruct (tbl !! Z.to_nat d) as [it0|]; [|discriminate].
    inversion Hi; subst. right. rewrite Hf. lia.
  - rewrite list_lookup_alter_ne in Hi by congruence. exact (Hok i it Hi).
Qed.

Lemma slots_ok_alter_fd (tbl : PollItemVector) f d :
  (forall it, PollItem.fd (f it) = PollItem.fd it) ->
  PollItem.fd (at_ tbl d) <> INVALID_FD ->
  slots_ok tbl -> slots_ok (alter f (Z.to_nat d) tbl).
Proof.
  intros Hf Hact Hok i it Hi.
  destruct (decide (i = Z.to_nat d)) as [->|Hne].
  - rewrite list_lookup_alter_eq in Hi.
    destruct (tbl !! Z.to_nat d) as [it0|] eqn:E; [|discriminate].
    inversion Hi; subst. right. rewrite Hf.
    destruct (Hok _ _ E) as [->|Hfd]; [|exact Hfd].
    exfalso. apply Hact. unfold at_. rewrite E. reflexivity.
  - rewrite list_lookup_alter_ne in Hi by congruence. exact (Hok i it Hi).
Qed.

Lemma slots_ok_reset (tbl : PollItemVector) n :
  slots_ok tbl -> slots_ok (alter PollItem.reset n tbl).
Proof.
  intros Hok i it Hi.
  destruct (decide (i = n)) as [->|Hne].
  - rewrite list_lookup_alter_eq in Hi.
    destruct (tbl !! n); [|discriminate]. inversion Hi. left. reflexivity.
  - rewrite list_lookup_alter_ne in Hi by congruence. exact (Hok i it Hi).
Qed.

Lemma slots_ok_take (tbl : PollItemVector) n : slots_ok tbl -> slots_ok (take n tbl).
Proof.
  intros Hok i it Hi. apply lookup_take_Some in Hi as [Hi _]. exact (Hok i it Hi).
Qed.

Lemma slots_ok_resizePollItems (tbl : PollItemVector) d :
  slots_ok tbl -> slots_ok (resizePollItems d tbl).
Proof.
  intros Hok i it Hi.
  destruct (Nat.lt_ge_cases i (length tbl)) as [Hlt|Hge].
  - rewrite lookup_resizePollItems_old in Hi by exact Hlt. exact (Hok i it Hi).
  - rewrite lookup_resizePollItems_new in Hi.
    + inversion Hi. left. reflexivity.
    + exact Hge.
    + apply lookup_lt_Some in Hi. exact Hi.
Qed.

(** X4. The empty table is sound — no more than [2 ^ 31] slots, each
    unused or holding its own index as descriptor — and [registerFd],
    [unregisterFd] and [updateFd] keep a sound table sound, whatever the
    kernel answers. *)
Theorem table_ok_kept :
  table_ok (O:=O) [] /\
  (forall d ev c w, Cint.is_int d -> table_ok (items w) ->
     table_ok (items (registerFd d ev c w).1.2)) /\
  (forall d w, table_ok (items w) -> table_ok (items (unregisterFd d w).1.2)) /\
  (forall d ev w, table_ok (items w) -> table_ok (items (updateFd d ev w).1.2)).
Proof.
  split; [|split; [|split]].
  - split; [exact int_indexed_nil|]. intros i it Hi. discriminate.
  - intros d ev c w Hint [Hsz Hok].
    split; [apply registerFd_int_indexed; assumption|].
    destruct (Z.ltb_spec d 0) as [Hneg|Hd].
    { rewrite registerFd_negative by exact Hneg. exact Hok. }
    rewrite registerFd_items by exact Hd.
    rewrite !list_alter_alter_eq.
    apply slots_ok_alter_same; [exact Hd|reflexivity|].
    apply slots_ok_resizePollItems. exact Hok.
  - intros d w [Hsz Hok].
    split; [apply unregisterFd_int_indexed; exact Hsz|].
    unfold unregisterFd. destruct (epoll_ctl _ _ _ _ _) as [r k].
    destruct ((d <? 0) || _); [exact Hok|].
    cbn [fst snd]. rewrite items_set_env, items_set_items.
    destruct (d <? _); [|destruct (d =? _)].
    + apply slots_ok_reset. exact Hok.
    + apply slots_ok_take. exact Hok.
    + exact Hok.
  - intros d ev w [Hsz Hok].
    split; [apply updateFd_int_indexed; exact Hsz|].
    unfold updateFd.
    destruct (d <? 0); [exact Hok|].
    destruct (Cint.to_size_t d >=? size (items w)); [exact Hok|].
    destruct (Z.eqb_spec INVALID_FD (PollItem.fd (at_ (items w) d))) as [|Hact];
      [exact Hok|].
    cbn [orb]. destruct (epoll_ctl _ _ _ _ _) as [r k].
    destruct (r <? 0); cbn [fst snd]; [exact Hok|].
    rewrite items_set_env, items_set_items.
    apply slots_ok_alter_fd; [reflexivity|congruence|exact Hok].
Qed.

End TableOk.

(** ** Removal, and what follows it *)

Section UnregisterProps.

Context {KE : KumaEv} {O : Outside} {KN : Kernel}.

Lemma unregisterFd_refused d w :
  int_indexed (items w) ->
  d < 0 \/ size (items w) - 1 < d ->
  unregisterFd d w = (INVALID_PARAM, w, [KumaTrace INFO; KumaTrace WARN]).
Proof.
  intros Hok Hd. unfold unregisterFd. rewrite (max_fd_int _ Hok).
  destruct (epoll_ctl _ _ _ _ _) as [r k].
  destruct (Z.ltb_spec d 0); [reflexivity|].
  destruct (Z.gtb_spec d (size (items w) - 1)); [reflexivity|lia].
Qed.

Lemma unregisterFd_items d w :
  int_indexed (items w) ->
  0 <= d <= size (items w) - 1 ->
  (unregisterFd d w).1.1 = NOERR /\
  items (unregisterFd d w).1.2
  = if d <? size (items w) - 1
    then alter PollItem.reset (Z.to_nat d) (items w)
    else pop_back (items w).
Proof.
  intros Hok Hd. unfold unregisterFd. rewrite (max_fd_int _ Hok).
  destruct (epoll_ctl _ _ _ _ _) as [r k].
  destruct (Z.ltb_spec d 0); [lia|].
  destruct (Z.gtb_spec d (size (items w) - 1)); [lia|].
  cbn [orb fst snd]. split; [reflexivity|].
  rewrite items_set_env, items_set_items.
  destruct (Z.ltb_spec d (size (items w) - 1)); [reflexivity|].
  destruct (Z.eqb_spec d (size (items w) - 1)); [reflexivity|lia].
Qed.

Lemma alter_reset_twice (tbl : PollItemVector) n :
  alter PollItem.reset n (alter PollItem.reset n tbl) = alter PollItem.reset n tbl.
Proof.
  apply list_eq. intros i. destruct (decide (i = n)) as [->|Hne].
  - rewrite !list_lookup_alter_eq. destruct (tbl !! n); reflexivity.
  - rewrite !list_lookup_alter_ne by congruence. reflexivity.
Qed.

(** X5. Removing a descriptor a second time never changes the table
    again.  For an index below the last the second call returns [NOERR]
    like the first (and asks the kernel once more); when the first call
    popped the last slot, the second is refused with [INVALID_PARAM]. *)
Theorem unregisterFd_twice d w :
  int_indexed (items w) ->
  0 <= d <= size (items w) - 1 ->
  let w1 := (unregisterFd d w).1.2 in
  (unregisterFd d w).1.1 = NOERR /\
  items (unregisterFd d w1).1.2 = items w1 /\
  (unregisterFd d w1).1.1
  = (if d <? size (items w) - 1 then NOERR else INVALID_PARAM).
Proof.
  intros Hok Hd w1.
  destruct (unregisterFd_items d w Hok Hd) as [Hr Hi].
  pose proof (unregisterFd_int_indexed (KN:=KN) d w Hok) as Hok1.
  fold w1 in Hi, Hok1. split; [exact Hr|].
  destruct (Z.ltb_spec d (size (items w) - 1)) as [Hlt|Hge].
  - assert (Hsz : size (items w1) = size (items w))
      by (rewrite Hi; apply size_alter).
    destruct (unregisterFd_items d w1 Hok1) as [Hr2 Hi2]; [lia|].
    split; [|exact Hr2]. rewrite Hi2, Hsz.
    destruct (Z.ltb_spec d (size (items w) - 1)); [|lia].
    rewrite Hi. apply alter_reset_twice.
  - assert (Hsz : size (items w1) = size (items w) - 1)
      by (rewrite Hi; apply size_pop_back; lia).
    rewrite unregisterFd_refused by (exact Hok1 || (right; lia)).
    split; reflexivity.
Qed.


(** X7. After a descriptor has been removed, [updateFd] for it returns
    [FAILED] without asking the kernel and without changing anything. *)
Theorem updateFd_after_unregisterFd d ev w :
  Cint.is_int d ->
  int_indexed (items w) ->
  0 <= d <= size (items w) - 1 ->
  let w1 := (unregisterFd d w).1.2 in
  updateFd d ev w1 = (FAILED, w1, []).
Proof.
  intros Hint Hok Hd w1.
  destruct (unregisterFd_items d w Hok Hd) as [_ Hi]. fold w1 in Hi.
  unfold updateFd. destruct (Z.ltb_spec d 0); [lia|].
  rewrite to_size_t_id by (unfold Cint.is_int in Hint; lia).
  destruct (Z.ltb_spec d (size (items w) - 1)) as [Hlt|Hge].
  - assert (Hat : at_ (items w1) d = PollItem.unused).
    { rewrite Hi, at_alter by lia. reflexivity. }
    rewrite Hat. destruct (d >=? size (items w1)); reflexivity.
  - assert (Hsz : size (items w1) = size (items w) - 1)
      by (rewrite Hi; apply size_pop_back; lia).
    destruct (Z.geb_spec d (size (items w1))); [reflexivity|lia].
Qed.

End UnregisterProps.

(** ** Dispatch *)

Section WaitProps.

Context {KE : KumaEv} {O : Outside} {KN : Kernel} {CL : Closures}.

Lemma dispatch_cons e evs w :
  dispatch (e :: evs) w
  = let fd := Cint.to_int (ev_data e) in
    let step :=
      if Cint.to_size_t fd <? size (items w) then
        match PollItem.cb (at_ (items w) fd) with
        | Some f =>
            (call_io f (get_kuma_events (ev_events e)) w,
             [CallIO f (get_kuma_events (ev_events e))])
        | None => (w, [])
        end
      else (w, []) in
    ((dispatch evs step.1).1, step.2 ++ (dispatch evs step.1).2).
Proof.
  cbn [dispatch]. cbv zeta.
  destruct (Cint.to_size_t _ <? _); [destruct (PollItem.cb _)|];
    cbn [fst snd]; destruct (dispatch evs _); reflexivity.
Qed.

Lemma dispatch_step_trace e w :
  (if Cint.to_size_t (Cint.to_int (ev_data e)) <? size (items w) then
     match PollItem.cb (at_ (items w) (Cint.to_int (ev_data e))) with
     | Some f =>
         (call_io f (get_kuma_events (ev_events e)) w,
          [CallIO f (get_kuma_events (ev_events e))])
     | None => (w, [])
     end
   else (w, [])).2 = ready_call (items w) e.
Proof.
  unfold ready_call.
  destruct (Cint.to_size_t _ <? _); [destruct (PollItem.cb _)|]; reflexivity.
Qed.

(** Events that lead to no callback leave everything as it is. *)
Lemma dispatch_skip evs w :
  (forall e, e ∈ evs -> ready_call (items w) e = []) ->
  dispatch evs w = (w, []).
Proof.
  induction evs as [|e evs IH]; intros H; [reflexivity|].
  assert (He : ready_call (items w) e = []) by (apply H; left).
  rewrite dispatch_cons. cbv zeta. unfold ready_call in He.
  destruct (Cint.to_size_t _ <? _).
  - destruct (PollItem.cb _); [discriminate|].
    cbn [fst snd]. rewrite IH by (intros e' He'; apply H; right; exact He').
    reflexivity.
  - cbn [fst snd]. rewrite IH by (intros e' He'; apply H; right; exact He').
    reflexivity.
Qed.

Lemma dispatch_keep_table :
  callbacks_keep_table ->
  forall evs w,
    items (dispatch evs w).1 = items w /\
    (dispatch evs w).2 = evs ≫= ready_call (items w).
Proof.
  intros Hk evs. induction evs as [|e evs IH]; intros w; [split; reflexivity|].
  rewrite dispatch_cons. cbv zeta. cbn [fst snd].
  rewrite dispatch_step_trace.
  set (step := if Cint.to_size_t _ <? _ then _ else _).
  assert (Hs : items step.1 = items w).
  { subst step. destruct (Cint.to_size_t _ <? _); [|reflexivity].
    destruct (PollItem.cb _); [apply Hk|reflexivity]. }
  destruct (IH step.1) as [Hi Ht]. rewrite Hi, Ht, Hs.
  split; reflexivity.
Qed.

Lemma dispatch_length evs : forall w,
  (length (dispatch evs w).2 <= length evs)%nat /\
  (forall x, x ∈ (dispatch evs w).2 -> exists f kev, x = CallIO f kev).
Proof.
  induction evs as [|e evs IH]; intros w.
  { split; [simpl; lia|]. intros x Hx. apply elem_of_nil in Hx. destruct Hx. }
  rewrite dispatch_cons. cbv zeta. cbn [fst snd].
  set (step := if Cint.to_size_t _ <? _ then _ else _).
  assert (Hs : (length step.2 <= 1)%nat /\
               forall x, x ∈ step.2 -> exists f kev, x = CallIO f kev).
  { subst step. destruct (Cint.to_size_t _ <? _); [destruct (PollItem.cb _)|];
      cbn [fst snd]; (split; [simpl; lia|]); intros x Hx.
    - apply list_elem_of_singleton in Hx. eauto.
    - apply elem_of_nil in Hx. destruct Hx.
    - apply elem_of_nil in Hx. destruct Hx. }
  destruct Hs as [Hl Hc]. destruct (IH step.1) as [Hl' Hc'].
  split.
  - rewrite length_app. simpl. lia.
  - intros x Hx. apply elem_of_app in Hx as [Hx|Hx]; eauto.
Qed.

(** X8. When the I/O callbacks leave the table alone, a [wait] whose
    [epoll_wait] reports [nfds >= 0] events calls, in the order reported,
    the callback of every reported descriptor that indexes into the table
    and has one, each with the readiness mask translated to the portable
    bits; events for other descriptors are passed over. *)
Theorem wait_dispatches wait_ms w :
  callbacks_keep_table ->
  let timeout := Cint.to_int wait_ms in
  let r := (epoll_wait (epfd w) MAX_EVENT_NUM timeout (env w)).1 in
  0 <= nfds r ->
  (wait wait_ms w).2
  = SysEpollWait (epfd w) MAX_EVENT_NUM timeout
      :: (take (Z.to_nat (nfds r)) (ready r) ≫= ready_call (items w)) /\
  items (wait wait_ms w).1.2 = items w.
Proof.
  intros Hk timeout r Hn. subst r. unfold wait. fold timeout.
  destruct (epoll_wait (epfd w) MAX_EVENT_NUM timeout (env w)) as [r k].
  cbn [fst] in Hn. destruct (Z.ltb_spec (nfds r) 0); [lia|].
  destruct (dispatch_keep_table Hk (take (Z.to_nat (nfds r)) (ready r))
              (set_env k w)) as [Hi Ht].
  destruct (dispatch _ _) as [w' t]. cbn [fst snd] in *.
  rewrite Ht, Hi. split; reflexivity.
Qed.

(** X9. Whatever the callbacks do, a [wait] whose [epoll_wait] reports
    [nfds >= 0] events makes that one system call and then at most one
    callback invocation per reported event, and nothing else; with
    [nfds = 0] (a timeout) it only changes the state of the kernel. *)
Theorem wait_one_call_per_event wait_ms w :
  let timeout := Cint.to_int wait_ms in
  let r := (epoll_wait (epfd w) MAX_EVENT_NUM timeout (env w)).1 in
  let k := (epoll_wait (epfd w) MAX_EVENT_NUM timeout (env w)).2 in
  0 <= nfds r ->
  (exists calls,
     (wait wait_ms w).2 = SysEpollWait (epfd w) MAX_EVENT_NUM timeout :: calls /\
     (length calls <= Z.to_nat (nfds r))%nat /\
     (length calls <= length (ready r))%nat /\
     forall x, x ∈ calls -> exists f kev, x = CallIO f kev) /\
  (nfds r = 0 ->
     wait wait_ms w
     = (NOERR, set_env k w, [SysEpollWait (epfd w) MAX_EVENT_NUM timeout])).
Proof.
  intros timeout r k Hn. subst r k. unfold wait. fold timeout.
  destruct (epoll_wait (epfd w) MAX_EVENT_NUM timeout (env w)) as [r k].
  cbn [fst snd] in *. destruct (Z.ltb_spec (nfds r) 0); [lia|].
  split.
  - destruct (dispatch_length (take (Z.to_nat (nfds r)) (ready r))
                (set_env k w)) as [Hl Hc].
    destruct (dispatch _ _) as [w' t]. cbn [fst snd] in *.
    exists t. rewrite length_take in Hl.
    split; [reflexivity|]. split; [lia|]. split; [lia|exact Hc].
  - intros E. rewrite E. reflexivity.
Qed.

(** X10. After a descriptor has been removed, a [wait] for which the
    kernel still reports that descriptor, and nothing else, calls no
    callback and leaves the loop object as it is. *)
Theorem no_dispatch_after_unregisterFd d w wait_ms :
  Cint.is_int d ->
  int_indexed (items w) ->
  0 <= d <= size (items w) - 1 ->
  let w1 := (unregisterFd d w).1.2 in
  let timeout := Cint.to_int wait_ms in
  let r := (epoll_wait (epfd w1) MAX_EVENT_NUM timeout (env w1)).1 in
  let k := (epoll_wait (epfd w1) MAX_EVENT_NUM timeout (env w1)).2 in
  0 <= nfds r ->
  (forall e, e ∈ take (Z.to_nat (nfds r)) (ready r) ->
     Cint.to_int (ev_data e) = d) ->
  wait wait_ms w1
  = (NOERR, set_env k w1, [SysEpollWait (epfd w1) MAX_EVENT_NUM timeout]).
Proof.
  intros Hint Hok Hd w1 timeout r k Hn Hev.
  destruct (unregisterFd_items (KN:=KN) d w Hok Hd) as [_ Hi]. fold w1 in Hi.
  assert (Hskip : forall e, Cint.to_int (ev_data e) = d ->
            ready_call (items w1) e = []).
  { intros e He. unfold ready_call. rewrite He.
    rewrite to_size_t_id by (unfold Cint.is_int in Hint; lia).
    destruct (Z.ltb_spec d (size (items w) - 1)) as [Hlt|Hge].
    - assert (Hat : at_ (items w1) d = PollItem.unused)
        by (rewrite Hi, at_alter by lia; reflexivity).
      rewrite Hat. destruct (d <? size (items w1)); reflexivity.
    - assert (Hsz : size (items w1) = size (items w) - 1)
        by (rewrite Hi; apply size_pop_back; lia).
      destruct (Z.ltb_spec d (size (items w1))); [lia|reflexivity]. }
  subst r k. unfold wait. fold timeout.
  destruct (epoll_wait (epfd w1) MAX_EVENT_NUM timeout (env w1)) as [r k].
  cbn [fst snd] in *. destruct (Z.ltb_spec (nfds r) 0); [lia|].
  rewrite dispatch_skip; [reflexivity|].
  intros e He. apply Hskip. apply Hev. exact He.
Qed.

End WaitProps.

(** ** The range of the two translations *)

Section MaskRange.

Context {K : KumaEv}.

Lemma land_lor_sub a b m :
  Z.land a m = a -> Z.land b m = b -> Z.land (Z.lor a b) m = Z.lor a b.
Proof.
  intros Ha Hb. rewrite Z.land_lor_distr_l, Ha, Hb. reflexivity.
Qed.

Lemma land_lor_l a b : Z.land a (Z.lor a b) = a.
Proof.
  apply Z.bits_inj'. intros n _. rewrite Z.land_spec, Z.lor_spec.
  destruct (Z.testbit a n), (Z.testbit b n); reflexivity.
Qed.

Lemma land_lor_r a b c : Z.land a c = a -> Z.land a (Z.lor b c) = a.
Proof.
  intros H. apply Z.bits_inj'. intros n _.
  apply (f_equal (fun z => Z.testbit z n)) in H.
  rewrite Z.land_spec in H. rewrite Z.land_spec, Z.lor_spec.
  destruct (Z.testbit a n), (Z.testbit b n), (Z.testbit c n);
    simpl in *; congruence.
Qed.

(** X11. The native mask that [get_events] builds is a [uint32_t] made of
    the edge-trigger flag and the four conditions only, whatever the
    portable mask; the portable mask that [get_kuma_events] builds — the
    one a callback receives — has no bit outside READ, WRITE and ERROR,
    whatever the kernel reported. *)
Theorem translations_stay_in_range :
  (forall m,
     Cint.is_uint32 (get_events m) /\
     Z.land (get_events m)
       (Z.lor EPOLLET (Z.lor EPOLLIN (Z.lor EPOLLOUT (Z.lor EPOLLERR EPOLLHUP))))
     = get_events m) /\
  (forall ev,
     Z.land (get_kuma_events ev)
       (Z.lor KUMA_EV_READ (Z.lor KUMA_EV_WRITE KUMA_EV_ERROR))
     = get_kuma_events ev).
Proof.
  split.
  - intros m. unfold get_events, Cint.is_uint32.
    destruct (nonzero (Z.land m KUMA_EV_READ)),
             (nonzero (Z.land m KUMA_EV_WRITE)),
             (nonzero (Z.land m KUMA_EV_ERROR));
      vm_compute; repeat split; congruence.
  - intros ev. unfold get_kuma_events.
    destruct (nonzero (Z.land ev EPOLLIN)),
             (nonzero (Z.land ev EPOLLOUT)),
             (nonzero (Z.land ev (Z.lor EPOLLERR EPOLLHUP)));
      repeat apply land_lor_sub;
      first [ reflexivity
            | apply land_lor_l
            | apply land_lor_r, land_lor_l
            | apply land_lor_r, land_lor_r; rewrite Z.land_diag; reflexivity ].
Qed.

End MaskRange.

(** ** Construction, initialisation and destruction of the poll *)

Section InitProps.

Context {KE : KumaEv} {O : Outside} {KN : Kernel} {CL : Closures} {PR : Process}.

Lemma registerFd_frame d ev c w :
  epfd (registerFd d ev c w).1.2 = epfd w /\
  queue (registerFd d ev c w).1.2 = queue w /\
  stopped (registerFd d ev c w).1.2 = stopped w /\
  listeners (registerFd d ev c w).1.2 = listeners w.
Proof.
  unfold registerFd. destruct (d <? 0); [repeat split|].
  destruct (epoll_ctl _ _ _ _ _) as [r k]. destruct (r <? 0); repeat split.
Qed.

Lemma registerFd_other_slots_aux d ev c w :
  forall i, Z.of_nat i <> d -> (i < length (items w))%nat ->
    items (registerFd d ev c w).1.2 !! i = items w !! i.
Proof.
  intros i Hi Hlt. destruct (Z.ltb_spec d 0) as [Hneg|Hd].
  - rewrite registerFd_negative by exact Hneg. reflexivity.
  - rewrite registerFd_items by exact Hd.
    rewrite !list_lookup_alter_ne by lia.
    apply lookup_resizePollItems_old. exact Hlt.
Qed.

Lemma epfd_Poll_init w :
  epfd (Poll.init w).1.2 = (epoll_create MAX_EPOLL_FDS (env w)).1.
Proof.
  unfold Poll.init.
  destruct (epoll_create MAX_EPOLL_FDS (env w)) as [efd k]. cbn [fst snd].
  destruct (INVALID_FD =? efd); [reflexivity|].
  destruct (negb (notifier_ready _)); [|reflexivity].
  destruct (notifier_init _) as [ok k2]. destruct (negb ok); [reflexivity|].
  match goal with
  | |- context [registerFd ?a ?b ?c ?v] =>
      pose proof (registerFd_frame a b c v) as (Hfd & _);
      destruct (registerFd a b c v) as [[r w'] t]
  end.
  exact Hfd.
Qed.

(** X12. [EPoll::init] succeeds exactly when [epoll_create] returns a
    descriptor and the notifier is ready or can be initialised — the
    answer of the kernel to the registration of the notifier plays no
    part.  The descriptor of the poll is the one [epoll_create] returned.
    When the notifier had to be initialised and its read descriptor is not
    negative, its slot holds that descriptor with READ and ERROR and the
    notifier's closure, and no other slot of the table has changed; in
    every other case — [epoll_create] failed, the notifier was ready, its
    initialisation failed, or its read descriptor is negative — the table
    is untouched and no event is produced. *)
Theorem Poll_init_cases w :
  let efd := (epoll_create MAX_EPOLL_FDS (env w)).1 in
  let k := (epoll_create MAX_EPOLL_FDS (env w)).2 in
  let nfd := notifier_getReadFD (notifier_init k).2 in
  let res := Poll.init w in
  (res.1.1 = true <->
     efd <> INVALID_FD /\
     (notifier_ready k = true \/ (notifier_init k).1 = true)) /\
  epfd res.1.2 = efd /\
  (efd <> INVALID_FD -> notifier_ready k = false ->
   (notifier_init k).1 = true -> 0 <= nfd ->
     at_ (items res.1.2) nfd
     = {| PollItem.fd := nfd;
          PollItem.events := Z.lor KUMA_EV_READ KUMA_EV_ERROR;
          PollItem.cb := Some notifier_onEvent |} /\
     forall i, Z.of_nat i <> nfd -> (i < length (items w))%nat ->
       items res.1.2 !! i = items w !! i) /\
  (efd = INVALID_FD \/ notifier_ready k = true \/
   (notifier_init k).1 = false \/ nfd < 0 ->
     items res.1.2 = items w /\ res.2 = []).
Proof.
  intros efd k nfd res. subst efd k nfd res. unfold Poll.init.
  destruct (epoll_create MAX_EPOLL_FDS (env w)) as [efd k]. cbn [fst snd].
  destruct (Z.eqb_spec INVALID_FD efd) as [E|E].
  { cbn [fst snd]. split; [|split; [reflexivity|split]].
    - split; [discriminate|]. intros [H _]. congruence.
    - intros H. congruence.
    - intros _. split; reflexivity. }
  change (env (set_env k (set_epfd efd w))) with k.
  destruct (notifier_ready k) eqn:Er; cbn [negb].
  { cbn [fst snd]. split; [|split; [reflexivity|split]].
    - split; [intros _|reflexivity]. split; [congruence|left; reflexivity].
    - intros _ H. discriminate.
    - intros _. split; reflexivity. }
  destruct (notifier_init k) as [ok k2] eqn:Ei. cbn [fst snd].
  destruct ok; cbn [negb].
  - change (env (set_env k2 (set_env k (set_epfd efd w)))) with k2.
    set (w0 := set_env k2 (set_env k (set_epfd efd w))).
    set (ev := Z.lor KUMA_EV_READ KUMA_EV_ERROR).
    pose proof (registerFd_slot (notifier_getReadFD k2) ev
                  (Some notifier_onEvent) w0) as Hslot.
    pose proof (registerFd_frame (notifier_getReadFD k2) ev
                  (Some notifier_onEvent) w0) as [Hfd _].
    pose proof (registerFd_other_slots_aux (notifier_getReadFD k2) ev
                  (Some notifier_onEvent) w0) as Hoth.
    pose proof (registerFd_negative (notifier_getReadFD k2) ev
                  (Some notifier_onEvent) w0) as Hneg.
    destruct (registerFd _ _ _ _) as [[r w'] t]. cbn [fst snd] in *.
    split; [|split; [exact Hfd|split]].
    + split; [intros _|reflexivity]. split; [congruence|right; reflexivity].
    + intros _ _ _ Hn. split; [apply Hslot; exact Hn|]. exact Hoth.
    + intros [H|[H|[H|H]]]; [congruence|discriminate|discriminate|].
      specialize (Hneg H). inversion Hneg; subst. split; reflexivity.
  - cbn [fst snd]. split; [|split; [reflexivity|split]].
    + split; [discriminate|]. intros [_ [H|H]]; discriminate.
    + intros _ _ H. discriminate.
    + intros _. split; reflexivity.
Qed.

(** X13. The destructor closes the descriptor of the poll when it has
    one, and only then: a poll that was never initialised, or whose
    [epoll_create] failed, closes nothing, and after the destructor has
    run a second run does nothing. *)
Theorem Poll_destroy_once w :
  epfd (Poll.destroy w) = INVALID_FD /\
  Poll.destroy (Poll.destroy w) = Poll.destroy w /\
  (epfd w = INVALID_FD -> Poll.destroy w = w) /\
  (poll_ (loop_ w) = Poll.new -> Poll.destroy w = w) /\
  (epfd w <> INVALID_FD ->
     env (Poll.destroy w) = sys_close (epfd w) (env w)) /\
  ((epoll_create MAX_EPOLL_FDS (env w)).1 = INVALID_FD ->
     Poll.destroy (Poll.init w).1.2 = (Poll.init w).1.2).
Proof.
  assert (Hfix : forall v, epfd v = INVALID_FD -> Poll.destroy v = v).
  { intros v Hv. unfold Poll.destroy. rewrite Hv. reflexivity. }
  assert (Hfd : epfd (Poll.destroy w) = INVALID_FD).
  { unfold Poll.destroy. destruct (Z.eqb_spec INVALID_FD (epfd w)) as [E|E];
      [symmetry; exact E|reflexivity]. }
  split; [exact Hfd|]. split; [apply Hfix; exact Hfd|]. split; [apply Hfix|].
  split; [|split].
  - intros Hnew. apply Hfix. unfold epfd. rewrite Hnew. reflexivity.
  - intros Hne. unfold Poll.destroy.
    destruct (Z.eqb_spec INVALID_FD (epfd w)); [congruence|reflexivity].
  - intros Hc. apply Hfix. rewrite epfd_Poll_init. exact Hc.
Qed.

Lemma Poll_init_frame w :
  queue (Poll.init w).1.2 = queue w /\
  stopped (Poll.init w).1.2 = stopped w /\
  listeners (Poll.init w).1.2 = listeners w.
Proof.
  unfold Poll.init.
  destruct (epoll_create MAX_EPOLL_FDS (env w)) as [efd k].
  destruct (INVALID_FD =? efd); [repeat split|].
  destruct (negb (notifier_ready _)); [|repeat split].
  destruct (notifier_init _) as [ok k2]. destruct (negb ok); [repeat split|].
  match goal with
  | |- context [registerFd ?a ?b ?c ?v] =>
      pose proof (registerFd_frame a b c v) as (_ & Hq & Hs & Hl);
      destruct (registerFd a b c v) as [[r w'] t]
  end.
  cbn [fst snd] in *. repeat split; assumption.
Qed.

(** X14. [EventLoopImpl::init] succeeds exactly when the poll's [init]
    does.  When it succeeds the stop flag is clear, whatever it was — a
    [stop] called before [init] is forgotten; when it fails the stop flag
    is what it was.  The task queue and the listeners are never
    touched. *)
Theorem Loop_init_stop_flag w :
  (Loop.init w).1.1 = (Poll.init w).1.1 /\
  stopped (Loop.init w).1.2
  = (if (Poll.init w).1.1 then false else stopped w) /\
  ((Poll.init (stop w).1).1.1 = true ->
     stopped (Loop.init (stop w).1).1.2 = false) /\
  queue (Loop.init w).1.2 = queue w /\
  listeners (Loop.init w).1.2 = listeners w.
Proof.
  assert (H : forall v,
    (Loop.init v).1.1 = (Poll.init v).1.1 /\
    stopped (Loop.init v).1.2 = (if (Poll.init v).1.1 then false else stopped v) /\
    queue (Loop.init v).1.2 = queue v /\
    listeners (Loop.init v).1.2 = listeners v).
  { intros v. unfold Loop.init.
    destruct (Poll_init_frame v) as (Hq & Hs & Hl).
    destruct (Poll.init v) as [[ok w'] t]. cbn [fst snd] in *.
    destruct ok; cbn [negb fst snd]; repeat split; assumption. }
  destruct (H w) as (H1 & H2 & H3 & H4).
  split; [exact H1|]. split; [exact H2|]. split; [|split; assumption].
  intros Hok. destruct (H (stop w).1) as (_ & H2' & _).
  rewrite H2', Hok. reflexivity.
Qed.

End InitProps.

(** ** Backend selection *)

(** X15. The epoll backend is chosen only where [KUMA_OS_LINUX] is
    defined; a request for [EPOLL] gets it exactly there and the
    platform's default everywhere else.  Requests for [POLL] and for
    [SELECT] are served on every platform, and every other request gets
    the platform's default. *)
Theorem createIOPoll_cases p :
  (forall t, createIOPoll p t = createEPoll -> KUMA_OS_LINUX p = true) /\
  (createIOPoll p PollType.EPOLL = createEPoll <-> KUMA_OS_LINUX p = true) /\
  (KUMA_OS_LINUX p = false ->
     createIOPoll p PollType.EPOLL = createDefaultIOPoll p) /\
  createIOPoll p PollType.POLL = createVPoll /\
  createIOPoll p PollType.SELECT = createSelectPoll /\
  createIOPoll p PollType.NONE = createDefaultIOPoll p /\
  createIOPoll p PollType.OTHER = createDefaultIOPoll p.
Proof.
  destruct p as [win lin mac].
  split; [|split; [|split]].
  - intros t. destruct t, win, lin, mac; cbn; congruence.
  - destruct win, lin, mac; cbn; split; congruence.
  - cbn. intros ->. reflexivity.
  - repeat split.
Qed.

(** * Further properties of EventLoopImpl.cpp *)

(** ** Listeners *)

Section ListenerProps.

Context {O : Outside}.

Lemma set_listeners_same (w : World) : set_listeners (listeners w) w = w.
Proof. destruct w as [[p q s ls] e]. reflexivity. Qed.

Lemma erase_first_absent l (ls : list Listener) :
  l ∉ ls -> erase_first l ls = ls.
Proof.
  induction ls as [|x ls IH]; intros H; [reflexivity|].
  simpl. destruct (decide (x = l)) as [->|Hne].
  - exfalso. apply H. left.
  - rewrite IH; [reflexivity|]. intros Hin. apply H. right. exact Hin.
Qed.

Lemma erase_first_present l (ls : list Listener) :
  l ∈ ls ->
  exists l1 l2, ls = l1 ++ l :: l2 /\ (l ∉ l1) /\ erase_first l ls = l1 ++ l2.
Proof.
  induction ls as [|x ls IH]; intros H.
  { apply elem_of_nil in H. destruct H. }
  simpl. destruct (decide (x = l)) as [->|Hne].
  - exists [], ls. split; [reflexivity|]. split; [apply not_elem_of_nil|reflexivity].
  - apply elem_of_cons in H as [H|H]; [congruence|].
    destruct (IH H) as (l1 & l2 & E & Hn & Er).
    exists (x :: l1), l2. split; [rewrite E; reflexivity|]. split.
    + intros Hin. apply elem_of_cons in Hin as [Hin|Hin]; [congruence|].
      exact (Hn Hin).
    + rewrite Er. reflexivity.
Qed.

Lemma erase_first_app_new l (ls : list Listener) :
  l ∉ ls -> erase_first l (ls ++ [l]) = ls.
Proof.
  induction ls as [|x ls IH]; intros H; simpl.
  - destruct (decide (l = l)); [reflexivity|congruence].
  - destruct (decide (x = l)) as [->|Hne].
    + exfalso. apply H. left.
    + rewrite IH; [reflexivity|]. intros Hin. apply H. right. exact Hin.
Qed.

(** X16. [removeListener] for a listener that is not in the list changes
    nothing.  For one that is, it removes the first entry that holds it
    and no other: a listener that was added twice is still in the list
    after one removal. *)
Theorem removeListener_cases l w :
  (l ∉ listeners w -> removeListener l w = w) /\
  (l ∈ listeners w ->
     exists l1 l2,
       listeners w = l1 ++ l :: l2 /\ (l ∉ l1) /\
       listeners (removeListener l w) = l1 ++ l2 /\
       length (listeners (removeListener l w)) = Nat.pred (length (listeners w))).
Proof.
  split.
  - intros H. unfold removeListener. rewrite erase_first_absent by exact H.
    apply set_listeners_same.
  - intros H. destruct (erase_first_present l _ H) as (l1 & l2 & E & Hn & Er).
    exists l1, l2. split; [exact E|]. split; [exact Hn|].
    unfold removeListener. change (listeners (set_listeners ?x w)) with x.
    rewrite Er. split; [reflexivity|]. rewrite E, !length_app. simpl. lia.
Qed.

(** X17. Adding a listener that is not in the list and removing it again
    gives the loop back as it was. *)
Theorem removeListener_addListener l w :
  l ∉ listeners w -> removeListener l (addListener l w) = w.
Proof.
  intros H. unfold removeListener, addListener.
  change (listeners (set_listeners ?x w)) with x.
  rewrite erase_first_app_new by exact H.
  destruct w as [[p q s ls] e]. reflexivity.
Qed.

End ListenerProps.

(** ** Submitting tasks *)

Section TaskProps.

Context {KE : KumaEv} {O : Outside} {KN : Kernel} {CL : Closures} {PR : Process}.

Lemma drain_only_tasks fuel : forall w w' t,
  drain fuel w = Some (w', t) -> forall x, x ∈ t -> (exists f, x = CallTask f).
Proof.
  induction fuel as [|n IH]; intros w w' t H x Hx; [discriminate|].
  rewrite drain_S in H. destruct (dequeue w) as [[cb w1]|].
  - destruct (drain n (run_task cb w1).1) as [[w3 ts]|] eqn:Ed; [|discriminate].
    inversion H; subst. apply elem_of_app in Hx as [Hx|Hx].
    + rewrite run_task_trace in Hx. destruct cb as [f|]; simpl in Hx.
      * apply list_elem_of_singleton in Hx. eauto.
      * apply elem_of_nil in Hx. destruct Hx.
    + exact (IH _ _ _ Ed x Hx).
  - inversion H; subst. apply elem_of_nil in Hx. destruct Hx.
Qed.

(** X18. [queueInEventLoop] never runs the task itself: it returns
    [NOERR], appends the task to the queue, leaves the table, the stop
    flag and the listeners alone, and wakes the poll only for a caller on
    another thread.  The next drain that finishes runs the tasks that
    were queued before it, then this one. *)
Theorem queueInEventLoop_then_drain in_loop_thread cb w fuel w' t :
  tasks_only_enqueue ->
  let res := Loop.queueInEventLoop in_loop_thread cb w in
  drain fuel res.1.2 = Some (w', t) ->
  res.1.1 = NOERR /\
  res.2 = (if in_loop_thread then [] else [CallNotify]) /\
  queue res.1.2 = queue w ++ [cb] /\
  items res.1.2 = items w /\ stopped res.1.2 = stopped w /\
  listeners res.1.2 = listeners w /\
  exists rest, t = task_calls (queue w) ++ task_call cb ++ rest.
Proof.
  intros Henq res Hd. subst res.
  assert (Hq : queue (Loop.queueInEventLoop in_loop_thread cb w).1.2
               = queue w ++ [cb])
    by (unfold Loop.queueInEventLoop; destruct in_loop_thread; reflexivity).
  destruct (drain_fifo fuel Henq _ _ _ Hd) as [rest Hr].
  rewrite Hq, task_calls_app in Hr.
  unfold Loop.queueInEventLoop in *. destruct in_loop_thread; cbn [negb fst snd];
    (repeat (split; [reflexivity|])); exists rest; rewrite Hr;
    unfold task_calls at 2; simpl; rewrite app_nil_r, <- app_assoc; reflexivity.
Qed.

(** X19. [runInEventLoop] with an empty function object: on the loop
    thread the call throws; from another thread it returns [NOERR], and
    the drain loop later takes the entry out of the queue and passes over
    it. *)
Theorem runInEventLoop_empty w :
  Loop.runInEventLoop true None w = Throws_bad_function_call /\
  exists w1,
    Loop.runInEventLoop false None w = Returns NOERR w1 [CallNotify] /\
    queue w1 = queue w ++ [None] /\
    (queue w = [] -> drain 2 w1 = Some (set_queue [] w1, [])).
Proof.
  split; [reflexivity|].
  exists (set_env (notifier_notify (env w)) (enqueue None w)).
  split; [reflexivity|]. split; [reflexivity|].
  intros Hq. rewrite drain_S. unfold dequeue, enqueue.
  change (queue (set_env ?k (set_queue ?q w))) with q. rewrite Hq. reflexivity.
Qed.



(** X22. On the loop thread, [unregisterFd] with [close_fd] set closes
    the descriptor also when the poll refuses the removal: the call then
    returns [INVALID_PARAM], the table is unchanged and the descriptor
    has been closed.  Without [close_fd] nothing changes at all. *)
Theorem unregisterFd_closes_when_refused d w :
  int_indexed (items w) ->
  d < 0 \/ size (items w) - 1 < d ->
  Loop.unregisterFd_in_loop_thread d true w
  = (INVALID_PARAM, set_env (closeFd d (env w)) w,
     [KumaTrace INFO; KumaTrace WARN]) /\
  Loop.unregisterFd_in_loop_thread d false w
  = (INVALID_PARAM, w, [KumaTrace INFO; KumaTrace WARN]).
Proof.
  intros Hok Hd. unfold Loop.unregisterFd_in_loop_thread.
  rewrite (unregisterFd_refused d w Hok Hd). split; reflexivity.
Qed.

End TaskProps.

(** ** Registration through the loop *)

Section LoopFdProps.

Context {KE : KumaEv} {O : Outside} {KN : Kernel} {CL : Closures}
        {PR : Process} {LA : Lambdas}.

Lemma registerFd_items_frame d ev c w v :
  items v = items w ->
  items (registerFd d ev c v).1.2 = items (registerFd d ev c w).1.2.
Proof.
  intros Hi. destruct (Z.ltb_spec d 0) as [Hneg|Hd].
  - rewrite !registerFd_negative by exact Hneg. exact Hi.
  - rewrite !registerFd_items by exact Hd. rewrite Hi. reflexivity.
Qed.

(** A queue that holds one task which queues nothing is drained in two
    rounds. *)
Lemma drain_single f v :
  queue v = [Some f] ->
  queue (call_task f (set_queue [] v)) = [] ->
  drain 2 v = Some (call_task f (set_queue [] v), [CallTask f]).
Proof.
  intros Hq Hq'. rewrite drain_S. unfold dequeue. rewrite Hq.
  cbn [run_task fst snd]. rewrite drain_S. unfold dequeue.
  match goal with
  | |- context [match queue ?x with _ => _ end] =>
      replace (queue x) with (@nil LoopCallback) by (symmetry; exact Hq')
  end.
  reflexivity.
Qed.


End LoopFdProps.

(** * Runs of the further properties *)

Lemma demo_callbacks_keep_table :
  callbacks_keep_table (O:=Demo.outside) (CL:=Demo.closures).
Proof. intros f kev w. reflexivity. Qed.

(** Descriptor 2 is registered in an empty table and the kernel accepts. *)
Lemma registerFd_accepted_witness :
  let w := Demo.world [] [] [] 0 Demo.idle in
  (registerFd (KE:=kuma_ev_124) (KN:=Demo.kernel) 2 1 (Some 5%nat) w).1.1 = NOERR /\
  at_ (items (registerFd (KE:=kuma_ev_124) (KN:=Demo.kernel) 2 1 (Some 5%nat) w).1.2) 2
  = Demo.item 2 1 5.
Proof.
  intros w.
  destruct (registerFd_accepted (KE:=kuma_ev_124) (KN:=Demo.kernel)
              2 1 (Some 5%nat) w ltac:(lia) ltac:(simpl; lia)) as (H1 & H2 & _).
  split; [exact H1|exact H2].
Defined.

(** The first registration of descriptor 2 adds, the second modifies. *)
Lemma registerFd_add_then_mod_witness :
  let w := Demo.world [] [] [] (-1) Demo.idle in
  let w1 := (registerFd (KE:=kuma_ev_124) (KN:=Demo.kernel) 2 1 (Some 5%nat) w).1.2 in
  head (registerFd (KE:=kuma_ev_124) (KN:=Demo.kernel) 2 1 (Some 5%nat) w).2
  = Some (SysEpollCtl 3 EPOLL_CTL_ADD 2 (Some (make_evt (KE:=kuma_ev_124) 2 1))) /\
  head (registerFd (KE:=kuma_ev_124) (KN:=Demo.kernel) 2 2 (Some 6%nat) w1).2
  = Some (SysEpollCtl 3 EPOLL_CTL_MOD 2 (Some (make_evt (KE:=kuma_ev_124) 2 2))).
Proof.
  intros w w1.
  destruct (registerFd_add_then_mod (KE:=kuma_ev_124) (KN:=Demo.kernel)
              2 1 (Some 5%nat) 2 (Some 6%nat) w ltac:(lia)) as [H1 H2].
  split; [apply H1; reflexivity|exact H2].
Defined.

Lemma unregisterFd_twice_witness :
  let w := Demo.world [Demo.item 0 1 1; PollItem.unused; Demo.item 2 1 2]
             [] [] 0 Demo.idle in
  let w1 := (unregisterFd (KN:=Demo.kernel) 0 w).1.2 in
  items w1 = [PollItem.unused; PollItem.unused; Demo.item 2 1 2] /\
  items (unregisterFd (KN:=Demo.kernel) 0 w1).1.2 = items w1 /\
  (unregisterFd (KN:=Demo.kernel) 0 w1).1.1 = NOERR.
Proof.
  intros w w1.
  destruct (unregisterFd_twice (KN:=Demo.kernel) 0 w) as (_ & H2 & H3).
  - unfold int_indexed, size. simpl. lia.
  - unfold size. simpl. lia.
  - split; [reflexivity|]. split; [exact H2|exact H3].
Defined.


Lemma updateFd_after_unregisterFd_witness :
  let w := Demo.world [Demo.item 0 1 1; PollItem.unused; Demo.item 2 1 2]
             [] [] 0 Demo.idle in
  let w1 := (unregisterFd (KN:=Demo.kernel) 2 w).1.2 in
  updateFd (KE:=kuma_ev_124) (KN:=Demo.kernel) 2 2 w1 = (FAILED, w1, []).
Proof.
  intros w w1.
  apply (updateFd_after_unregisterFd (KE:=kuma_ev_124) (KN:=Demo.kernel) 2 2 w).
  - unfold Cint.is_int. lia.
  - unfold int_indexed, size. simpl. lia.
  - unfold size. simpl. lia.
Defined.

(** Descriptors 0 and 1 are registered with callbacks 5 and 6; the kernel
    reports 1 readable, then 7 (not in the table), then 0 in error. *)
Lemma wait_dispatches_witness :
  let w := Demo.world [Demo.item 0 1 5; Demo.item 1 1 6] [] [] 0
             {| nfds := 3; errno := 0;
                ready := [{| ev_events := EPOLLIN; ev_data := 1 |};
                          {| ev_events := EPOLLIN; ev_data := 7 |};
                          {| ev_events := EPOLLHUP; ev_data := 0 |}] |} in
  (wait (KE:=kuma_ev_124) (KN:=Demo.kernel) (CL:=Demo.closures) 1000 w).2
  = [SysEpollWait 3 MAX_EVENT_NUM 1000; CallIO 6%nat 1; CallIO 5%nat 4].
Proof.
  intros w.
  destruct (wait_dispatches (KE:=kuma_ev_124) (KN:=Demo.kernel)
              (CL:=Demo.closures) 1000 w demo_callbacks_keep_table
              ltac:(simpl; lia)) as [H _].
  exact H.
Defined.

Lemma wait_one_call_per_event_witness :
  let w := Demo.world [Demo.item 0 1 5] [] [] 0 Demo.idle in
  wait (KE:=kuma_ev_124) (KN:=Demo.kernel) (CL:=Demo.closures) 1000 w
  = (NOERR, w, [SysEpollWait 3 MAX_EVENT_NUM 1000]).
Proof.
  intros w.
  destruct (wait_one_call_per_event (KE:=kuma_ev_124) (KN:=Demo.kernel)
              (CL:=Demo.closures) 1000 w ltac:(simpl; lia)) as [_ H].
  apply H. reflexivity.
Defined.

(** Descriptor 0 is removed; the kernel still reports it readable. *)
Lemma no_dispatch_after_unregisterFd_witness :
  let w := Demo.world [Demo.item 0 1 5; Demo.item 1 1 6] [] [] 0
             {| nfds := 1; errno := 0;
                ready := [{| ev_events := EPOLLIN; ev_data := 0 |}] |} in
  let w1 := (unregisterFd (KN:=Demo.kernel) 0 w).1.2 in
  wait (KE:=kuma_ev_124) (KN:=Demo.kernel) (CL:=Demo.closures) 1000 w1
  = (NOERR, w1, [SysEpollWait 3 MAX_EVENT_NUM 1000]).
Proof.
  intros w w1.
  apply (no_dispatch_after_unregisterFd (KE:=kuma_ev_124) (KN:=Demo.kernel)
           (CL:=Demo.closures) 0 w 1000).
  - unfold Cint.is_int. lia.
  - unfold int_indexed, size. simpl. lia.
  - unfold size. simpl. lia.
  - simpl. lia.
  - intros e He. simpl in He. apply list_elem_of_singleton in He. subst e.
    reflexivity.
Defined.

Lemma removeListener_addListener_witness :
  let w := Demo.world [] [] [7%nat] 0 Demo.idle in
  removeListener 8%nat (addListener 8%nat w) = w.
Proof.
  intros w. apply removeListener_addListener.
  intros H. simpl in H. apply list_elem_of_singleton in H. discriminate H.
Defined.

(** Task 1 (which queues task 2) is queued; task 5 is queued from another
    thread; the drain runs 1, 5, 2. *)
Lemma queueInEventLoop_then_drain_witness :
  let w := Demo.world [] [Some 1%nat] [] 0 Demo.idle in
  let res := Loop.queueInEventLoop (KN:=Demo.kernel) false (Some 5%nat) w in
  queue res.1.2 = [Some 1%nat; Some 5%nat] /\
  exists w',
    drain (CL:=Demo.closures) 5 res.1.2
    = Some (w', [CallTask 1%nat; CallTask 5%nat; CallTask 2%nat]).
Proof.
  intros w res.
  destruct (drain (CL:=Demo.closures) 5 res.1.2) as [[w' t]|] eqn:E;
    [|discriminate E].
  destruct (queueInEventLoop_then_drain (KN:=Demo.kernel) (CL:=Demo.closures)
              false (Some 5%nat) w 5 w' t demo_tasks_only_enqueue E)
    as (_ & _ & Hq & _).
  split; [exact Hq|]. exists w'. vm_compute in E. inversion E. reflexivity.
Defined.



Lemma unregisterFd_closes_when_refused_witness :
  let w := Demo.world [Demo.item 0 1 1] [] [] 0 Demo.idle in
  (Loop.unregisterFd_in_loop_thread (KN:=Demo.kernel) (PR:=DemoProcess.process)
     (-1) true w).1.1 = INVALID_PARAM.
Proof.
  intros w.
  destruct (unregisterFd_closes_when_refused (KN:=Demo.kernel)
              (PR:=DemoProcess.process) (-1) w) as [H _].
  - unfold int_indexed, size. simpl. lia.
  - left. lia.
  - rewrite H. reflexivity.
Defined.

